(** * nestjs-zod-openapi: the swagger patch ([patch-nest-swagger.ts])

  A shallow embedding of [patchNestjsSwagger] and of the two prototype
  methods it installs, [exploreModelSchema] and [scanApplication],
  together with the fragment of ECMAScript they run on: strings compared
  with [<], plain objects with their property order, object spread,
  [Object.entries], [Object.fromEntries] and [Array.prototype.sort]. *)

From Stdlib Require Import ZArith Ascii String List Permutation Sorted Bool Lia.
From stdpp Require Import base option strings list sorting gmap.

Open Scope string_scope.
Open Scope list_scope.

(** ** ECMAScript strings

  A schema name is a [string]; each character stands for one code unit, so
  the names covered are those whose code units are below 256, where code
  unit and code point agree. *)

Module JSString.

(** [a < b] on strings: the first differing code unit decides, and a
    proper prefix is smaller. *)
Definition lt (a b : string) : bool := String.ltb a b.

Definition ordinal_lt (a b : string) : Prop := String.compare a b = Lt.

(** Array indices: the canonical decimal numerals of 0 .. 2^32 - 2. An
    ordinary object lists these keys first, in ascending numeric order,
    whatever their insertion order. *)
Definition digit (c : ascii) : option N :=
  let n := N_of_ascii c in
  if ((48 <=? n) && (n <=? 57))%N then Some (n - 48)%N else None.

Fixpoint digits (acc : N) (s : string) : option N :=
  match s with
  | EmptyString => Some acc
  | String c s' =>
      match digit c with
      | Some d => digits (10 * acc + d)%N s'
      | None => None
      end
  end.

Definition arrayIndex (k : string) : option N :=
  match k with
  | EmptyString => None
  | String c rest =>
      if Ascii.eqb c "0" && negb (String.eqb rest EmptyString) then None
      else match digits 0 k with
           | Some n => if (n <? 2 ^ 32 - 1)%N then Some n else None
           | None => None
           end
  end.

End JSString.

(** ** ECMAScript plain objects

    A plain data object is the list of its own enumerable string-keyed
    properties in the order [OrdinaryOwnPropertyKeys] reports them: array
    indices in ascending numeric order, then every other key in the order of
    its creation. *)

Module JSObject.

Section Properties.

Context {V : Type}.

Definition keys (o : list (string * V)) : list string := o.*1.

(** [o[k]], [None] for [undefined]. *)
Fixpoint get (k : string) (o : list (string * V)) : option V :=
  match o with
  | [] => None
  | (k', v) :: o' => if String.eqb k' k then Some v else get k o'
  end.

(** Writing an existing property keeps its place. *)
Fixpoint update (k : string) (v : V) (o : list (string * V)) : list (string * V) :=
  match o with
  | [] => []
  | (k', v') :: o' =>
      if String.eqb k' k then (k', v) :: o' else (k', v') :: update k v o'
  end.

(** A new array index [n] goes before the first key that is a larger index
    or no index at all. *)
Fixpoint insertIndex (n : N) (k : string) (v : V) (o : list (string * V))
  : list (string * V) :=
  match o with
  | [] => [(k, v)]
  | (k', v') :: o' =>
      match JSString.arrayIndex k' with
      | Some m =>
          if (m <? n)%N then (k', v') :: insertIndex n k v o'
          else (k, v) :: (k', v') :: o'
      | None => (k, v) :: (k', v') :: o'
      end
  end.

(** [CreateDataProperty(o, k, v)]: what a spread and [Object.fromEntries] do
    for each entry. *)
Definition defineProperty (k : string) (v : V) (o : list (string * V))
  : list (string * V) :=
  match get k o with
  | Some _ => update k v o
  | None =>
      match JSString.arrayIndex k with
      | Some n => insertIndex n k v o
      | None => o ++ [(k, v)]
      end
  end.

(** Copy the properties of [src] onto [o], in the order [src] lists them. *)
Definition assign (o src : list (string * V)) : list (string * V) :=
  fold_left (λ acc e, defineProperty e.1 e.2 acc) src o.

Definition Object_entries (o : list (string * V)) : list (string * V) := o.

Definition Object_fromEntries (l : list (string * V)) : list (string * V) :=
  assign [] l.

(** The object literal [{ ...s1, ...s2, ... }]; spreading [undefined] copies
    nothing. *)
Definition spread (sources : list (option (list (string * V)))) : list (string * V) :=
  fold_left (λ acc s, match s with Some src => assign acc src | None => acc end)
            sources [].

(** [k1] may stand before [k2] in the key order of one object. *)
Definition precedes (k1 k2 : string) : bool :=
  negb (String.eqb k1 k2) &&
  match JSString.arrayIndex k1, JSString.arrayIndex k2 with
  | Some a, Some b => (a <? b)%N
  | Some _, None => true
  | None, None => true
  | None, Some _ => false
  end.

Fixpoint orderedKeys (ks : list string) : bool :=
  match ks with
  | [] => true
  | k :: ks' => forallb (precedes k) ks' && orderedKeys ks'
  end.

(** The lists that are objects: no key twice, keys in enumeration order. *)
Definition wellFormed (o : list (string * V)) : Prop := orderedKeys (keys o) = true.

End Properties.

(** [Array.prototype.sort(comparefn)]: the stable sort. [comparefn x y <= 0]
    keeps [x] before [y]. With a comparator that is not consistent the
    order is left to the implementation; this is one it may produce. *)
Section Sorting.

Context {A : Type}.

Fixpoint insert (comparefn : A → A → Z) (x : A) (l : list A) : list A :=
  match l with
  | [] => [x]
  | y :: l' =>
      if (comparefn x y <=? 0)%Z then x :: y :: l' else y :: insert comparefn x l'
  end.

Definition Array_sort (comparefn : A → A → Z) (l : list A) : list A :=
  foldr (insert comparefn) [] l.

End Sorting.

End JSObject.

(** ** Values of the program *)

Inductive Exception : Type :=
| TypeError (message : string)
| Thrown (value : nat).

Inductive Outcome (A : Type) : Type :=
| Return (a : A)
| Throw (e : Exception).

Arguments Return {A} a.
Arguments Throw {A} e.

(** What the patch takes from its surroundings without looking inside: the
    schema definitions of the validation library, the schema objects of the
    OpenAPI document and how the generator library turns one into the
    other, the state the framework keeps apart from the registry, the
    receiver and the arguments of the scan, the fields of the document the
    patch never reads, and the comparator behind
    [String.prototype.localeCompare]. *)
Class Platform : Type := {
  ZodSchema : Type;
  SchemaObject : Type;
  generateSchema : ZodSchema → SchemaObject;
  World : Type;
  SwaggerScanner : Type;
  INestApplication : Type;
  SwaggerDocumentOptions : Type;
  DocumentRest : Type;
  ComponentsRest : Type;
  localeCompare : string → string → Z
}.

Section Patch.

Context `{Platform}.

#[local] Unset Elimination Schemes.

(** A type reference: a class or a function, with its [name], its
    [zodSchema] property ([None] when absent) and what calling it with no
    argument gives. *)
Inductive TypeRef : Type := mkTypeRef {
  name : string;
  zodSchema : option ZodSchema;
  invoke : Outcome TypeRef
}.

#[local] Set Elimination Schemes.

(** The receiver of [exploreModelSchema]. *)
Record SchemaObjectFactory : Type := {
  isLazyTypeFunc : TypeRef → bool
}.

(** The state both patched methods share: the registry of the closure and
    everything else the framework may change. *)
Record State : Type := {
  registry : gmap string ZodSchema;
  world : World
}.

(** Modelled from the spec: the [OpenAPIRegistry] class of
    @asteasolutions/zod-to-openapi, which the sources only import. The
    registry maps a schema name to the schema definition registered under
    it; registering under a name already present overwrites. *)
Definition new_OpenAPIRegistry : gmap string ZodSchema := ∅.

(** Modelled from the spec: [registry.register(refId, schema)] enters the
    schema under the name, overwriting any prior registration under it. *)
Definition register (refId : string) (schema : ZodSchema)
  (r : gmap string ZodSchema) : gmap string ZodSchema :=
  <[refId := schema]> r.

(** Modelled from the spec: [registry.definitions], the full current
    contents of the registry as named schema definitions. *)
Definition definitions (r : gmap string ZodSchema) : list (string * ZodSchema) :=
  map_to_list r.

Record ComponentsObject : Type := {
  schemas : list (string * SchemaObject);
  components_rest : ComponentsRest
}.

Record OpenAPIObject : Type := {
  components : ComponentsObject;
  document_rest : DocumentRest
}.

(** What [generateComponents] returns: [{ components?: { schemas?: ... } }]. *)
Record GeneratedComponents : Type := {
  generated_schemas : option (list (string * SchemaObject))
}.

Record GeneratedDocument : Type := {
  generated_components : option GeneratedComponents
}.

(** Modelled from the spec: the [OpenApiGeneratorV3] class of
    @asteasolutions/zod-to-openapi, which the sources only import. It
    accepts a set of named schema definitions and returns
    [{ components: { schemas } }] with one component per definition, under
    the definition's name; it does not touch the registry. *)
Record OpenApiGeneratorV3 : Type := {
  generator_definitions : list (string * ZodSchema)
}.

(** Modelled from the spec: [generator.generateComponents()], a pure
    transform of the definitions; [generateSchema] is the schema object the
    library derives from one schema definition. *)
Definition generateComponents (generator : OpenApiGeneratorV3) : GeneratedDocument :=
  {| generated_components := Some {|
       generated_schemas := Some (JSObject.Object_fromEntries
         (map (λ d, (d.1, generateSchema d.2)) (generator_definitions generator)))
     |} |}.

(** [doc.components?.schemas] *)
Definition components_schemas (doc : GeneratedDocument)
  : option (list (string * SchemaObject)) :=
  match generated_components doc with
  | Some c => generated_schemas c
  | None => None
  end.

(** The component map derived from a registry: the [doc.components?.schemas]
    of [new OpenApiGeneratorV3(registry.definitions).generateComponents()],
    nothing when it is [undefined]. *)
Definition registryComponents (r : gmap string ZodSchema)
  : list (string * SchemaObject) :=
  default [] (components_schemas
                (generateComponents {| generator_definitions := definitions r |})).

(** *** exploreModelSchema *)

Inductive ExploreResult : Type :=
| SchemaName (n : string)
| InlineSchema (s : SchemaObject).

(** One call of the explore operation: the value returned or thrown, the
    schema map and the refs stack the caller passed as the call leaves them,
    and the state as the call leaves it. *)
Record Explored : Type := {
  returned : Outcome ExploreResult;
  schemas_after : list (string * SchemaObject);
  schemaRefsStack_after : list string;
  state_after : State
}.

Definition ExploreModelSchema : Type :=
  SchemaObjectFactory → TypeRef → list (string * SchemaObject) →
  option (list string) → State → Explored.

(** [if (this.isLazyTypeFunc(type)) type = type()] *)
Definition resolveType (this : SchemaObjectFactory) (type : TypeRef) : Outcome TypeRef :=
  if isLazyTypeFunc this type then invoke type else Return type.

(** The method installed on [SchemaObjectFactory.prototype]. *)
Definition exploreModelSchema (orgExploreModelSchema : ExploreModelSchema)
  : ExploreModelSchema :=
  λ this type schemas schemaRefsStack st,
    let schemaRefsStack := default [] schemaRefsStack in
    match resolveType this type with
    | Throw e =>
        {| returned := Throw e; schemas_after := schemas;
           schemaRefsStack_after := schemaRefsStack; state_after := st |}
    | Return type =>
        match zodSchema type with
        | None => orgExploreModelSchema this type schemas (Some schemaRefsStack) st
        | Some schema =>
            {| returned := Return (SchemaName (name type));
               schemas_after := schemas;
               schemaRefsStack_after := schemaRefsStack;
               state_after := {| registry := register (name type) schema (registry st);
                                 world := world st |} |}
        end
    end.

(** *** scanApplication *)

Definition ScanApplication : Type :=
  SwaggerScanner → INestApplication → SwaggerDocumentOptions → State →
  Outcome OpenAPIObject * State.

(** The comparator of the [alpha] branch:
    [if (aKey < bKey) return -1; if (aKey > bKey) return 1; return 0]. *)
Definition alphaCompare (a b : string * SchemaObject) : Z :=
  if JSString.lt a.1 b.1 then (-1)%Z
  else if JSString.lt b.1 a.1 then 1%Z
  else 0%Z.

(** The order the comparator of the alpha branch stands for. *)
Definition keyLe (a b : string * SchemaObject) : Prop :=
  a.1 = b.1 ∨ JSString.ordinal_lt a.1 b.1.

(** The comparator of the [localeCompare] branch:
    [aKey.localeCompare(bKey)]. *)
Definition localeCompareKeys (a b : string * SchemaObject) : Z :=
  localeCompare a.1 b.1.

(** The [if (sort === 'alpha') ... else if (sort === 'localeCompare') ...
    else ...] block: the value assigned to [openAPIObject.components.schemas]. *)
Definition sortedSchemas (sort : string) (schemas : list (string * SchemaObject))
  : list (string * SchemaObject) :=
  if String.eqb sort "alpha" then
    JSObject.Object_fromEntries
      (JSObject.Array_sort alphaCompare (JSObject.Object_entries schemas))
  else if String.eqb sort "localeCompare" then
    JSObject.Object_fromEntries
      (JSObject.Array_sort localeCompareKeys (JSObject.Object_entries schemas))
  else schemas.

(** [{ ...openAPIObject.components.schemas, ...doc.components?.schemas }] *)
Definition mergedSchemas (openAPIObject : OpenAPIObject) (doc : GeneratedDocument)
  : list (string * SchemaObject) :=
  JSObject.spread [Some (schemas (components openAPIObject)); components_schemas doc].

(** [openAPIObject.components.schemas = value] *)
Definition set_components_schemas (openAPIObject : OpenAPIObject)
  (value : list (string * SchemaObject)) : OpenAPIObject :=
  {| components := {| schemas := value;
                      components_rest := components_rest (components openAPIObject) |};
     document_rest := document_rest openAPIObject |}.

(** The method installed on [SwaggerScanner.prototype]; [sort] is the
    option the closure captured. *)
Definition scanApplication (sort : string) (orgScanApplication : ScanApplication)
  : ScanApplication :=
  λ this app options st,
    match orgScanApplication this app options st with
    | (Throw e, st') => (Throw e, st')
    | (Return openAPIObject, st') =>
        let generator := {| generator_definitions := definitions (registry st') |} in
        let doc := generateComponents generator in
        let schemas := mergedSchemas openAPIObject doc in
        (Return (set_components_schemas openAPIObject (sortedSchemas sort schemas)), st')
    end.

(** *** patchNestjsSwagger *)

(** A collaborator module: the method found on the prototype of the class it
    exports, when it exports that class. *)
Record Module : Type := {
  SchemaObjectFactory_prototype_exploreModelSchema : option ExploreModelSchema;
  SwaggerScanner_prototype_scanApplication : option ScanApplication
}.

(** The first argument, [{ sort }]. *)
Record Options : Type := {
  sort : option string
}.

(** The second argument, [{ schemaObjectFactoryModule, swaggerScannerModule }]:
    each module is given by its address among the loaded modules, [None]
    when the property is absent. *)
Record ModuleHandles : Type := {
  schemaObjectFactoryModule : option nat;
  swaggerScannerModule : option nat
}.

Definition schemaObjectFactoryPath : string :=
  "@nestjs/swagger/dist/services/schema-object-factory".

Definition swaggerScannerPath : string := "@nestjs/swagger/dist/swagger-scanner".

(** A destructuring parameter whose argument is [undefined] throws. *)
Definition destructure {A : Type} (argument : option A) : Outcome A :=
  match argument with
  | Some a => Return a
  | None => Throw (TypeError "Cannot destructure property of undefined")
  end.

(** A property with a default: the default is evaluated only when the
    property is [undefined]. *)
Definition withDefault {A : Type} (property : option A) (initializer : Outcome A)
  : Outcome A :=
  match property with
  | Some a => Return a
  | None => initializer
  end.

(** [value.prototype] throws when [value] is [undefined]. *)
Definition prototypeOf {A : Type} (value : option A) : Outcome A :=
  match value with
  | Some a => Return a
  | None => Throw (TypeError "Cannot read properties of undefined")
  end.

(** The installer runs over the loaded module objects, kept by address: a
    step may replace a module and may throw, and what was replaced before a
    throw stays replaced. *)
Definition Installer (A : Type) : Type :=
  gmap nat Module → Outcome A * gmap nat Module.

#[local] Instance Installer_ret : MRet Installer := λ A a modules, (Return a, modules).

#[local] Instance Installer_bind : MBind Installer := λ A B k m modules,
  match m modules with
  | (Return a, modules') => k a modules'
  | (Throw e, modules') => (Throw e, modules')
  end.

Definition evaluate {A : Type} (o : Outcome A) : Installer A :=
  λ modules, (o, modules).

Definition moduleAt (address : nat) : Installer Module :=
  λ modules, (prototypeOf (modules !! address), modules).

Definition setModule (address : nat) (module : Module) : Installer unit :=
  λ modules, (Return (), <[address := module]> modules).

(** [require] is the module loader. The call returns the registry it
    created for the two closures, and leaves both prototypes patched. *)
Definition patchNestjsSwagger (require : string → Outcome nat)
  (options : option Options) (handles : option ModuleHandles)
  : Installer (gmap string ZodSchema) :=
  options ← evaluate (destructure options);
  let sort := default "default" (sort options) in
  handles ← evaluate (destructure handles);
  schemaObjectFactoryModule ←
    evaluate (withDefault (schemaObjectFactoryModule handles)
                          (require schemaObjectFactoryPath));
  swaggerScannerModule ←
    evaluate (withDefault (swaggerScannerModule handles)
                          (require swaggerScannerPath));
  let registry := new_OpenAPIRegistry in
  factoryModule ← moduleAt schemaObjectFactoryModule;
  orgExploreModelSchema ←
    evaluate (prototypeOf (SchemaObjectFactory_prototype_exploreModelSchema factoryModule));
  _ ← setModule schemaObjectFactoryModule {|
        SchemaObjectFactory_prototype_exploreModelSchema :=
          Some (exploreModelSchema orgExploreModelSchema);
        SwaggerScanner_prototype_scanApplication :=
          SwaggerScanner_prototype_scanApplication factoryModule |};
  scannerModule ← moduleAt swaggerScannerModule;
  orgScanApplication ←
    evaluate (prototypeOf (SwaggerScanner_prototype_scanApplication scannerModule));
  _ ← setModule swaggerScannerModule {|
        SchemaObjectFactory_prototype_exploreModelSchema :=
          SchemaObjectFactory_prototype_exploreModelSchema scannerModule;
        SwaggerScanner_prototype_scanApplication :=
          Some (scanApplication sort orgScanApplication) |};
  mret registry.

End Patch.

(** ** A build of the cats application

    The README's example: the validation schemas [User] and [CatShelter],
    a class the framework describes itself, and stand-ins for the two
    framework modules. Schema definitions and schema objects are numbers
    here; the generator adds 100. *)

Module Scenario.

Definition platform : Platform := {|
  ZodSchema := nat;
  SchemaObject := nat;
  generateSchema := λ z, 100 + z;
  World := nat;
  SwaggerScanner := unit;
  INestApplication := unit;
  SwaggerDocumentOptions := unit;
  DocumentRest := string;
  ComponentsRest := string;
  localeCompare := λ a b,
    match String.compare a b with Lt => (-1)%Z | Eq => 0%Z | Gt => 1%Z end
|}.

Definition classOf (n : string) (schema : option nat) : @TypeRef platform :=
  @mkTypeRef platform n schema
    (Throw (TypeError "Class constructor cannot be invoked without 'new'")).

(** A function named [type] that returns [t]: [type: () => t], as a
    property initialiser names its function. *)
Definition deferred (t : @TypeRef platform) : @TypeRef platform :=
  @mkTypeRef platform "type" None (Return t).

Definition User : @TypeRef platform := classOf "User" (Some 1).
Definition CatShelter : @TypeRef platform := classOf "CatShelter" (Some 2).
Definition UserAgain : @TypeRef platform := classOf "User" (Some 3).
Definition Health : @TypeRef platform := classOf "Health" None.
Definition NotFound : @TypeRef platform := classOf "404" (Some 4).

(** The framework's test for a deferred reference: a function named [type]. *)
Definition factory : @SchemaObjectFactory platform :=
  @Build_SchemaObjectFactory platform (λ t, String.eqb (name t) "type").

(** A stand-in for the framework's own explore operation: it resolves a
    deferred reference itself, once, records the type under its name,
    counts the call and returns the name. *)
Definition orgExploreModelSchema : @ExploreModelSchema platform :=
  λ this type schemas schemaRefsStack st,
    match resolveType this type with
    | Throw e =>
        @Build_Explored platform (Throw e) schemas (default [] schemaRefsStack) st
    | Return type =>
        @Build_Explored platform
          (Return (SchemaName (name type)))
          (JSObject.defineProperty (name type) 0 schemas)
          (default [] schemaRefsStack)
          (@Build_State platform (registry st) (S (world st)))
    end.

(** A stand-in for the framework's own scan: starting from the schemas
    it described itself, it explores every discovered type through the
    method found on the prototype, and returns a document holding the schema
    map so built. *)
Definition orgScanApplication (discovered : list (@TypeRef platform))
  (native : list (string * nat)) : @ScanApplication platform :=
  λ this app options st,
    let explored :=
      foldl (λ acc type,
               let r := exploreModelSchema orgExploreModelSchema
                          factory type acc.1 None acc.2 in
               (schemas_after r, state_after r))
            (native, st) discovered in
    (Return (@Build_OpenAPIObject platform
               (@Build_ComponentsObject platform explored.1 "parameters") "paths"),
     explored.2).

Definition start : @State platform := @Build_State platform new_OpenAPIRegistry 0.

(** The loaded modules: the two framework modules at addresses 0 and 1. *)
Definition modules : gmap nat (@Module platform) :=
  <[0 := @Build_Module platform (Some orgExploreModelSchema) None]>
  (<[1 := @Build_Module platform None
            (Some (orgScanApplication [Health; User; CatShelter] []))]> ∅).

Definition require (path : string) : Outcome nat :=
  if String.eqb path schemaObjectFactoryPath then Return 0
  else if String.eqb path swaggerScannerPath then Return 1
  else Throw (Thrown 404).

End Scenario.

(** ** The key order of any object

    What [OrdinaryOwnPropertyKeys] promises about two keys of one object,
    [k1] listed before [k2]: an array index never follows a key that is not
    one, and of two array indices the first is not the larger. *)

Definition enumerationOrder (k1 k2 : string) : Prop :=
  match JSString.arrayIndex k1, JSString.arrayIndex k2 with
  | Some a, Some b => (a <= b)%N
  | Some _, None => True
  | None, None => True
  | None, Some _ => False
  end.

(** The keys of an object that are not array indices, in the order the
    object lists them. *)
Definition nonIndexKeys {V : Type} (o : list (string * V)) : list string :=
  filter (λ k, JSString.arrayIndex k = None) (JSObject.keys o).

(** ** Names as sequences of UTF-16 code units

    The comparison of lines 77 to 81 once more, for names of any code
    units: [units] gives the code units of a name of the model, [lt] is [<]
    on sequences of code units, and [codePoints] reads a sequence as code
    points, a high surrogate followed by a low one being one code point. *)

Module UTF16.

Definition units (s : string) : list N :=
  map N_of_ascii (list_ascii_of_string s).

Fixpoint lt (a b : list N) : bool :=
  match a, b with
  | _, [] => false
  | [], _ :: _ => true
  | x :: a', y :: b' =>
      if (x <? y)%N then true
      else if (y <? x)%N then false
      else lt a' b'
  end.

(** [if (aKey < bKey) return -1; if (aKey > bKey) return 1; return 0] *)
Definition alphaCompare {V : Type} (a b : list N * V) : Z :=
  if lt a.1 b.1 then (-1)%Z
  else if lt b.1 a.1 then 1%Z
  else 0%Z.

Definition le (a b : list N) : Prop := a = b ∨ lt a b = true.

Definition highSurrogate (u : N) : bool := ((55296 <=? u) && (u <=? 56319))%N.

Definition lowSurrogate (u : N) : bool := ((56320 <=? u) && (u <=? 57343))%N.

Fixpoint codePoints (s : list N) : list N :=
  match s with
  | [] => []
  | h :: rest =>
      match rest with
      | l :: rest' =>
          if highSurrogate h && lowSurrogate l
          then (65536 + (h - 55296) * 1024 + (l - 56320))%N :: codePoints rest'
          else h :: codePoints rest
      | [] => [h]
      end
  end.

Definition codePoint_lt (a b : list N) : bool := lt (codePoints a) (codePoints b).

End UTF16.

(** * Facts

    ** String comparison *)

Module JSStringFacts.

Import JSString.

Lemma ascii_compare_refl c : Ascii.compare c c = Eq.
Proof. unfold Ascii.compare. apply N.compare_refl. Qed.

Lemma ascii_compare_lt_trans a b c :
  Ascii.compare a b = Lt → Ascii.compare b c = Lt → Ascii.compare a c = Lt.
Proof.
  unfold Ascii.compare. rewrite !N.compare_lt_iff. lia.
Qed.

Lemma compare_refl s : String.compare s s = Eq.
Proof.
  induction s as [|c s IH]; simpl; [done|].
  by rewrite ascii_compare_refl.
Qed.

Lemma compare_lt_trans a : ∀ b c,
  String.compare a b = Lt → String.compare b c = Lt → String.compare a c = Lt.
Proof.
  induction a as [|x a IH]; intros [|y b] [|z c]; simpl; try done.
  destruct (Ascii.compare x y) eqn:Hxy; try done.
  - apply Ascii.compare_eq_iff in Hxy as ->.
    destruct (Ascii.compare y z); try done. apply IH.
  - intros _. destruct (Ascii.compare y z) eqn:Hyz; try done.
    + apply Ascii.compare_eq_iff in Hyz as <-. by rewrite Hxy.
    + by rewrite (ascii_compare_lt_trans x y z).
Qed.

Lemma lt_spec a b : lt a b = true ↔ ordinal_lt a b.
Proof.
  unfold lt, String.ltb, ordinal_lt.
  destruct (String.compare a b); split; congruence.
Qed.

Lemma lt_irrefl a : lt a a = false.
Proof. unfold lt, String.ltb. by rewrite compare_refl. Qed.

(** Trichotomy, in the shape the comparator of the alpha sort needs. *)
Lemma not_lt_cases a b : lt a b = false → a = b ∨ ordinal_lt b a.
Proof.
  unfold lt, String.ltb, ordinal_lt. rewrite (String.compare_antisym b a).
  destruct (String.compare a b) eqn:H; simpl; try done.
  - apply String.compare_eq_iff in H. by left.
  - by right.
Qed.

Lemma lt_asym a b : ordinal_lt a b → lt b a = false.
Proof.
  unfold lt, String.ltb, ordinal_lt. rewrite (String.compare_antisym a b).
  by destruct (String.compare b a).
Qed.

End JSStringFacts.

(** ** Objects: reading after writing *)

Module JSObjectFacts.

Import JSObject.

Section Lookup.

Context {V : Type}.

Implicit Types (o src l : list (string * V)) (k : string) (v : V).

Lemma keys_snoc o k v : keys (o ++ [(k, v)]) = keys o ++ [k].
Proof. unfold keys. by rewrite fmap_app. Qed.

Lemma get_None k o : get k o = None ↔ k ∉ keys o.
Proof.
  unfold keys. induction o as [|[k' v'] o IH]; simpl.
  - split; [intros _; apply not_elem_of_nil | done].
  - rewrite not_elem_of_cons. destruct (String.eqb_spec k' k) as [->|Hne].
    + split; [done | intros [? _]; done].
    + rewrite IH. split; [intros ?; split; [congruence | done] | intros [_ ?]; done].
Qed.

Lemma get_is_Some k o : is_Some (get k o) ↔ k ∈ keys o.
Proof.
  rewrite <- not_eq_None_Some, get_None.
  split; [apply dec_stable | auto].
Qed.

Lemma get_Some_elem k v o : get k o = Some v → (k, v) ∈ o.
Proof.
  induction o as [|[k' v'] o IH]; simpl; [done|].
  destruct (String.eqb_spec k' k) as [->|Hne].
  - intros [= ->]. apply list_elem_of_here.
  - intros ?. apply list_elem_of_further. auto.
Qed.

(** With no key twice, an entry of the list is what [get] reads. *)
Lemma elem_get k v o : NoDup (keys o) → (k, v) ∈ o → get k o = Some v.
Proof.
  unfold keys. induction o as [|[k' v'] o IH]; simpl.
  - intros _ Hin. by apply elem_of_nil in Hin.
  - rewrite NoDup_cons. intros [Hnotin Hnd] Hin.
    apply elem_of_cons in Hin as [[= -> ->]|Hin].
    + by rewrite String.eqb_refl.
    + destruct (String.eqb_spec k' k) as [->|Hne]; [|auto].
      exfalso. apply Hnotin. apply list_elem_of_fmap. by exists (k, v).
Qed.

Lemma get_Permutation k o o' : NoDup (keys o) → o ≡ₚ o' → get k o = get k o'.
Proof.
  intros Hnd Hp.
  assert (Hnd' : NoDup (keys o')).
  { unfold keys in *. by rewrite <- Hp. }
  destruct (get k o) as [v|] eqn:Hg.
  - symmetry. apply elem_get; [done|]. rewrite <- Hp. by apply get_Some_elem.
  - symmetry. apply get_None. apply get_None in Hg.
    unfold keys in *. by rewrite <- Hp.
Qed.

Lemma keys_update k v o : keys (update k v o) = keys o.
Proof.
  unfold keys. induction o as [|[k' v'] o IH]; simpl; [done|].
  destruct (String.eqb k' k); csimpl; [done | by rewrite IH].
Qed.

Lemma get_update k k' v o :
  k' ∈ keys o → get k (update k' v o) = if String.eqb k' k then Some v else get k o.
Proof.
  unfold keys. induction o as [|[k0 v0] o IH]; simpl.
  - intros Hin. by apply elem_of_nil in Hin.
  - intros Hin. destruct (String.eqb_spec k0 k') as [->|Hne]; simpl.
    + by destruct (String.eqb k' k).
    + apply elem_of_cons in Hin as [->|Hin]; [done|].
      rewrite (IH Hin). destruct (String.eqb_spec k0 k) as [->|?]; [|done].
      destruct (String.eqb_spec k' k); [congruence | done].
Qed.

Lemma keys_insertIndex n k v o : keys (insertIndex n k v o) ≡ₚ k :: keys o.
Proof.
  unfold keys. induction o as [|[k' v'] o IH]; simpl; [done|].
  destruct (JSString.arrayIndex k') as [m|]; [|done].
  destruct (m <? n)%N; simpl; [|done].
  rewrite IH. apply perm_swap.
Qed.

Lemma get_insertIndex n k k' v o :
  k' ∉ keys o →
  get k (insertIndex n k' v o) = if String.eqb k' k then Some v else get k o.
Proof.
  unfold keys. induction o as [|[k0 v0] o IH]; simpl; [done|].
  rewrite not_elem_of_cons. intros [Hne Hnotin].
  destruct (JSString.arrayIndex k0) as [m|]; [|done].
  destruct (m <? n)%N; simpl; [|done].
  rewrite (IH Hnotin). destruct (String.eqb_spec k0 k) as [->|?]; [|done].
  destruct (String.eqb_spec k' k); [congruence | done].
Qed.

Lemma get_snoc k k' v o :
  k' ∉ keys o → get k (o ++ [(k', v)]) = if String.eqb k' k then Some v else get k o.
Proof.
  unfold keys. induction o as [|[k0 v0] o IH]; simpl; [done|].
  rewrite not_elem_of_cons. intros [Hne Hnotin].
  rewrite (IH Hnotin). destruct (String.eqb_spec k0 k) as [->|?]; [|done].
  destruct (String.eqb_spec k' k); [congruence | done].
Qed.

(** [o[k'] = v] and nothing else changes. *)
Lemma get_defineProperty k k' v o :
  get k (defineProperty k' v o) = if String.eqb k' k then Some v else get k o.
Proof.
  unfold defineProperty. destruct (get k' o) as [w|] eqn:Hg.
  - apply get_update. apply get_is_Some. by rewrite Hg.
  - apply get_None in Hg.
    destruct (JSString.arrayIndex k'); [by apply get_insertIndex | by apply get_snoc].
Qed.

Lemma keys_defineProperty k v o :
  keys (defineProperty k v o) ≡ₚ if decide (k ∈ keys o) then keys o else k :: keys o.
Proof.
  unfold defineProperty. destruct (get k o) as [w|] eqn:Hg.
  - rewrite decide_True; [by rewrite keys_update|].
    apply get_is_Some. by rewrite Hg.
  - apply get_None in Hg. rewrite decide_False by done.
    destruct (JSString.arrayIndex k); [apply keys_insertIndex|].
    unfold keys. rewrite fmap_app. simpl. by rewrite Permutation_app_comm.
Qed.

Lemma NoDup_keys_defineProperty k v o :
  NoDup (keys o) → NoDup (keys (defineProperty k v o)).
Proof.
  intros Hnd. rewrite keys_defineProperty.
  destruct (decide (k ∈ keys o)); [done | by apply NoDup_cons].
Qed.

Lemma assign_cons o k v src :
  assign o ((k, v) :: src) = assign (defineProperty k v o) src.
Proof. done. Qed.

Lemma assign_snoc o src k v :
  assign o (src ++ [(k, v)]) = defineProperty k v (assign o src).
Proof. unfold assign. by rewrite fold_left_app. Qed.

Lemma NoDup_keys_assign o src : NoDup (keys o) → NoDup (keys (assign o src)).
Proof.
  revert o. induction src as [|[k v] src IH]; intros o Hnd; [done|].
  rewrite assign_cons. apply IH. by apply NoDup_keys_defineProperty.
Qed.

(** After copying [src] onto [o], a key reads as the last entry [src] has
    for it, and as in [o] when [src] has none. *)
Lemma get_assign k o src :
  get k (assign o src) =
    match get k (reverse src) with Some v => Some v | None => get k o end.
Proof.
  induction src as [|[k' v'] src IH] using rev_ind; [done|].
  rewrite assign_snoc, get_defineProperty, reverse_snoc. simpl.
  by destruct (String.eqb k' k).
Qed.

Lemma get_reverse k l : NoDup (keys l) → get k (reverse l) = get k l.
Proof. intros Hnd. symmetry. apply get_Permutation; [done|]. by rewrite reverse_Permutation. Qed.

Lemma get_fromEntries k l :
  NoDup (keys l) → get k (Object_fromEntries l) = get k l.
Proof.
  intros Hnd. unfold Object_fromEntries. rewrite get_assign, get_reverse by done.
  by destruct (get k l).
Qed.

Lemma NoDup_keys_fromEntries l : NoDup (keys (Object_fromEntries l)).
Proof. apply NoDup_keys_assign. constructor. Qed.

Lemma keys_fromEntries l :
  NoDup (keys l) → keys (Object_fromEntries l) ≡ₚ keys l.
Proof.
  intros Hnd. apply NoDup_Permutation; [apply NoDup_keys_fromEntries | done |].
  intros k. rewrite <- !get_is_Some. by rewrite get_fromEntries.
Qed.

Lemma NoDup_keys_spread (sources : list (option (list (string * V)))) :
  NoDup (keys (spread sources)).
Proof.
  unfold spread.
  assert (Hnil : NoDup (keys (@nil (string * V)))) by constructor.
  revert Hnil. generalize (@nil (string * V)).
  induction sources as [|[s|] sources IH]; intros o Hnd; simpl.
  - done.
  - apply IH. by apply NoDup_keys_assign.
  - by apply IH.
Qed.

End Lookup.

(** ** Objects: the order of the keys *)

Section Order.

Context {V : Type}.

Implicit Types (o src l : list (string * V)) (k : string) (v : V).

Lemma orderedKeys_snoc ks k :
  orderedKeys (ks ++ [k]) = true →
  orderedKeys ks = true ∧ Forall (λ k', precedes k' k = true) ks.
Proof.
  induction ks as [|a ks IH]; simpl; [by split|].
  rewrite forallb_app. simpl. rewrite !andb_true_iff.
  intros [[Ha [Hak _]] Hks]. destruct (IH Hks) as [Hord Hall].
  repeat split; try done. by constructor.
Qed.

Lemma orderedKeys_no_index ks :
  NoDup ks → Forall (λ k, JSString.arrayIndex k = None) ks → orderedKeys ks = true.
Proof.
  induction ks as [|a ks IH]; [done|].
  rewrite NoDup_cons, Forall_cons. intros [Hnotin Hnd] [Ha Hall]. simpl.
  rewrite (IH Hnd Hall), andb_true_r. apply forallb_forall. intros k Hin.
  apply list_elem_of_In in Hin. unfold precedes. rewrite Ha.
  rewrite Forall_forall in Hall. rewrite (Hall k Hin).
  rewrite andb_true_r. apply negb_true_iff, String.eqb_neq.
  by intros ->.
Qed.

Lemma precedes_ne k' k : precedes k' k = true → k' ≠ k.
Proof.
  unfold precedes. rewrite andb_true_iff, negb_true_iff, String.eqb_neq. by intros [? _].
Qed.

Lemma insertIndex_last n k v o :
  JSString.arrayIndex k = Some n →
  Forall (λ k', precedes k' k = true) (keys o) →
  insertIndex n k v o = o ++ [(k, v)].
Proof.
  intros Hk. unfold keys. induction o as [|[k' v'] o IH]; csimpl; [done|].
  rewrite Forall_cons. intros [Hpre Hall]. unfold precedes in Hpre. rewrite Hk in Hpre.
  apply andb_true_iff in Hpre as [_ Hpre].
  destruct (JSString.arrayIndex k') as [m|]; [|done].
  rewrite Hpre. by rewrite (IH Hall).
Qed.

(** A key that may stand after every key of [o] is added at the end. *)
Lemma defineProperty_last k v o :
  Forall (λ k', precedes k' k = true) (keys o) →
  defineProperty k v o = o ++ [(k, v)].
Proof.
  intros Hall. unfold defineProperty.
  assert (Hg : get k o = None).
  { apply get_None. intros Hin. rewrite Forall_forall in Hall.
    apply Hall in Hin. by apply precedes_ne in Hin. }
  rewrite Hg. destruct (JSString.arrayIndex k) eqn:Hk; [|done].
  by apply insertIndex_last.
Qed.

Lemma defineProperty_present k v o :
  k ∈ keys o → keys (defineProperty k v o) = keys o.
Proof.
  intros Hin. apply get_is_Some in Hin as [w Hw].
  unfold defineProperty. rewrite Hw. apply keys_update.
Qed.

Lemma defineProperty_new k v o :
  k ∉ keys o → JSString.arrayIndex k = None → defineProperty k v o = o ++ [(k, v)].
Proof.
  intros Hnotin Hk. apply get_None in Hnotin.
  unfold defineProperty. by rewrite Hnotin, Hk.
Qed.

(** Writing the entries of an object, in its own order, onto an empty
    object gives the object back. *)
Lemma fromEntries_wellFormed o : wellFormed o → Object_fromEntries o = o.
Proof.
  unfold wellFormed, Object_fromEntries.
  induction o as [|[k v] o IH] using rev_ind; [done|].
  rewrite keys_snoc. intros Hord.
  apply orderedKeys_snoc in Hord as [Hord Hall].
  rewrite assign_snoc, (IH Hord). by apply defineProperty_last.
Qed.

Lemma filter_notin_snoc (ks seen : list string) k :
  k ∉ ks → filter (λ x, x ∉ seen ++ [k]) ks = filter (λ x, x ∉ seen) ks.
Proof.
  induction ks as [|a ks IH]; [done|].
  rewrite not_elem_of_cons. intros [Hne Hnotin].
  rewrite !filter_cons, (IH Hnotin).
  destruct (decide (a ∉ seen ++ [k])) as [H1|H1], (decide (a ∉ seen)) as [H2|H2];
    try done.
  - exfalso. apply H1. apply elem_of_app. left. by apply dec_stable.
  - exfalso. apply H1. rewrite elem_of_app, list_elem_of_singleton.
    intros [?|?]; [done | congruence].
Qed.

(** Copying [src] onto [o] keeps the keys of [o] where they are and puts
    the keys [o] does not have after them, in the order of [src], as long
    as none of those is an array index. *)
Lemma keys_assign_new src : ∀ o,
  NoDup (keys src) →
  (∀ k, k ∈ keys src → k ∉ keys o → JSString.arrayIndex k = None) →
  keys (assign o src) = keys o ++ filter (λ k, k ∉ keys o) (keys src).
Proof.
  induction src as [|[k v] src IH]; intros o Hnd Hnew.
  - simpl. by rewrite app_nil_r.
  - rewrite assign_cons.
    change (keys ((k, v) :: src)) with (k :: keys src) in *.
    apply NoDup_cons in Hnd as [Hk Hnd].
    destruct (decide (k ∈ keys o)) as [Hin|Hnotin].
    + rewrite IH; [| done |].
      * rewrite (defineProperty_present k v o Hin).
        rewrite filter_cons_False; [done | by intros ?].
      * intros k' Hk'. rewrite (defineProperty_present k v o Hin).
        apply Hnew. by apply list_elem_of_further.
    + assert (Hidx : JSString.arrayIndex k = None).
      { apply Hnew; [apply list_elem_of_here | done]. }
      rewrite (defineProperty_new k v o Hnotin Hidx).
      rewrite IH; [| done |].
      * rewrite !keys_snoc, filter_cons_True by done.
        rewrite (filter_notin_snoc (keys src) (keys o) k Hk).
        by rewrite <- app_assoc.
      * intros k' Hk' Hnot. apply Hnew; [by apply list_elem_of_further|].
        intros Hin'. apply Hnot. rewrite keys_snoc.
        apply elem_of_app. by left.
Qed.

End Order.

End JSObjectFacts.

(** ** Sorting an array *)

Module ArraySortFacts.

Import JSObject.

Section Permutes.

Context {A : Type} (comparefn : A → A → Z).

Lemma insert_Permutation x l : insert comparefn x l ≡ₚ x :: l.
Proof.
  induction l as [|y l IH]; simpl; [done|].
  destruct (comparefn x y <=? 0)%Z; [done|].
  rewrite IH. apply perm_swap.
Qed.

(** Whatever the comparator answers, the sort only rearranges. *)
Lemma Array_sort_Permutation l : Array_sort comparefn l ≡ₚ l.
Proof.
  induction l as [|x l IH]; simpl; [done|].
  by rewrite insert_Permutation, IH.
Qed.

End Permutes.

Section Sorts.

Context {A : Type} (comparefn : A → A → Z) (R : A → A → Prop).

Hypothesis comparefn_le : ∀ x y, (comparefn x y <= 0)%Z → R x y.
Hypothesis comparefn_gt : ∀ x y, (0 < comparefn x y)%Z → R y x.
Hypothesis R_trans : ∀ x y z, R x y → R y z → R x z.

Lemma insert_StronglySorted x l :
  StronglySorted R l → StronglySorted R (insert comparefn x l).
Proof.
  induction 1 as [|y l Hsorted IH Hall]; simpl.
  - repeat constructor.
  - destruct (Z.leb_spec (comparefn x y) 0) as [Hle|Hgt].
    + apply comparefn_le in Hle. constructor; [by constructor|].
      constructor; [done|]. eapply Forall_impl; [exact Hall|].
      intros z Hyz. by apply (R_trans x y z).
    + constructor; [done|]. rewrite insert_Permutation.
      constructor; [by apply comparefn_gt | done].
Qed.

(** With a comparator that agrees with a transitive relation, the sort
    sorts. *)
Lemma Array_sort_StronglySorted l : StronglySorted R (Array_sort comparefn l).
Proof.
  induction l as [|x l IH]; simpl; [constructor|].
  by apply insert_StronglySorted.
Qed.

End Sorts.

End ArraySortFacts.

(** * The patched methods *)

Section Claims.

Context `{Platform}.

Import JSObject JSObjectFacts.

Implicit Types (st : State) (r : gmap string ZodSchema) (k : string).

(** ** The registry-derived component map *)

Lemma keys_generated (l : list (string * ZodSchema)) :
  keys (map (λ d, (d.1, generateSchema d.2)) l) = l.*1.
Proof.
  unfold keys. induction l as [|[n z] l IH]; csimpl; [done|]. by rewrite IH.
Qed.

Lemma registryComponents_eq r :
  registryComponents r =
    Object_fromEntries (map (λ d, (d.1, generateSchema d.2)) (map_to_list r)).
Proof. done. Qed.

Lemma NoDup_keys_registryComponents r : NoDup (keys (registryComponents r)).
Proof. rewrite registryComponents_eq. apply NoDup_keys_fromEntries. Qed.

(** One component per registered name, generated from the definition the
    registry holds under that name. *)
Lemma get_registryComponents k r :
  get k (registryComponents r) = generateSchema <$> r !! k.
Proof.
  rewrite registryComponents_eq.
  assert (Hnd : NoDup (keys (map (λ d : string * ZodSchema, (d.1, generateSchema d.2))
                               (map_to_list r)))).
  { rewrite keys_generated. apply NoDup_fst_map_to_list. }
  rewrite get_fromEntries by done.
  destruct (r !! k) as [z|] eqn:Hr; simpl.
  - apply elem_get; [done|]. apply elem_of_map_to_list in Hr.
    apply list_elem_of_fmap. by exists (k, z).
  - apply get_None. rewrite keys_generated. intros Hin.
    apply list_elem_of_fmap in Hin as [[k' z] [-> Hin]].
    apply elem_of_map_to_list in Hin. simpl in Hr. congruence.
Qed.

(** ** The merge *)

Lemma mergedSchemas_registry (o : OpenAPIObject) r :
  mergedSchemas o (generateComponents {| generator_definitions := definitions r |}) =
    assign (assign [] (schemas (components o))) (registryComponents r).
Proof. done. Qed.

Lemma NoDup_keys_mergedSchemas (o : OpenAPIObject) (doc : GeneratedDocument) :
  NoDup (keys (mergedSchemas o doc)).
Proof. apply NoDup_keys_spread. Qed.

(** A name the registry-derived map has reads, after the merge, as in that
    map. *)
Lemma get_mergedSchemas_registry (o : OpenAPIObject) r k v :
  get k (registryComponents r) = Some v →
  get k (mergedSchemas o (generateComponents {| generator_definitions := definitions r |}))
    = Some v.
Proof.
  intros Hg. rewrite mergedSchemas_registry, get_assign.
  rewrite get_reverse by apply NoDup_keys_registryComponents. by rewrite Hg.
Qed.

(** ** The sort step *)

Lemma get_sorted_entries (comparefn : string * SchemaObject → string * SchemaObject → Z)
  (m : list (string * SchemaObject)) k :
  NoDup (keys m) →
  get k (Object_fromEntries (Array_sort comparefn (Object_entries m))) = get k m.
Proof.
  intros Hnd. unfold Object_entries.
  assert (Hp : Array_sort comparefn m ≡ₚ m) by apply ArraySortFacts.Array_sort_Permutation.
  assert (Hnd' : NoDup (keys (Array_sort comparefn m))).
  { unfold keys in *. by rewrite Hp. }
  rewrite get_fromEntries by done. symmetry. by apply get_Permutation.
Qed.

Lemma keys_sorted_entries (comparefn : string * SchemaObject → string * SchemaObject → Z)
  (m : list (string * SchemaObject)) :
  NoDup (keys m) →
  keys (Object_fromEntries (Array_sort comparefn (Object_entries m))) ≡ₚ keys m.
Proof.
  intros Hnd. unfold Object_entries.
  assert (Hp : Array_sort comparefn m ≡ₚ m) by apply ArraySortFacts.Array_sort_Permutation.
  assert (Hnd' : NoDup (keys (Array_sort comparefn m))).
  { unfold keys in *. by rewrite Hp. }
  rewrite keys_fromEntries by done. unfold keys. by rewrite Hp.
Qed.

Lemma get_sortedSchemas sort (m : list (string * SchemaObject)) k :
  NoDup (keys m) → get k (sortedSchemas sort m) = get k m.
Proof.
  intros Hnd. unfold sortedSchemas.
  destruct (String.eqb sort "alpha"); [by apply get_sorted_entries|].
  destruct (String.eqb sort "localeCompare"); [by apply get_sorted_entries | done].
Qed.

Lemma keys_sortedSchemas sort (m : list (string * SchemaObject)) :
  NoDup (keys m) → keys (sortedSchemas sort m) ≡ₚ keys m.
Proof.
  intros Hnd. unfold sortedSchemas.
  destruct (String.eqb sort "alpha"); [by apply keys_sorted_entries|].
  destruct (String.eqb sort "localeCompare"); [by apply keys_sorted_entries | done].
Qed.

(** ** What the patched scan returns *)

Lemma scanApplication_Return sort (orgScanApplication : ScanApplication)
  this app options st (openAPIObject : OpenAPIObject) st' :
  orgScanApplication this app options st = (Return openAPIObject, st') →
  scanApplication sort orgScanApplication this app options st =
    (Return (set_components_schemas openAPIObject
               (sortedSchemas sort
                  (mergedSchemas openAPIObject
                     (generateComponents
                        {| generator_definitions := definitions (registry st') |})))),
     st').
Proof. intros Horg. unfold scanApplication. by rewrite Horg. Qed.

Lemma scanApplication_Throw sort (orgScanApplication : ScanApplication)
  this app options st e st' :
  orgScanApplication this app options st = (Throw e, st') →
  scanApplication sort orgScanApplication this app options st = (Throw e, st').
Proof. intros Horg. unfold scanApplication. by rewrite Horg. Qed.

(** ** exploreModelSchema on a type that carries [zodSchema] *)

(** C1. When the type reference, resolved first if it is a deferred
    reference, carries [zodSchema], the patched [exploreModelSchema] returns
    the name of the resolved type, and the registry then holds, under that
    name, the schema attached to the type. *)
Theorem exploreModelSchema_registers_marked_type
  (orgExploreModelSchema : ExploreModelSchema) this type schemas schemaRefsStack st
  (resolved : TypeRef) (schema : ZodSchema) :
  resolveType this type = Return resolved →
  zodSchema resolved = Some schema →
  let r := exploreModelSchema orgExploreModelSchema this type schemas schemaRefsStack st in
  returned r = Return (SchemaName (name resolved)) ∧
  registry (state_after r) !! name resolved = Some schema.
Proof.
  intros Hres Hz. unfold exploreModelSchema. rewrite Hres, Hz. simpl.
  split; [done|]. unfold register. apply lookup_insert_eq.
Qed.

(** C10. On that path the schema map and the refs stack passed in come back
    as they were, the rest of the state is untouched, and in the registry
    only the entry under the type's name is written. *)
Theorem exploreModelSchema_marked_type_frame
  (orgExploreModelSchema : ExploreModelSchema) this type schemas schemaRefsStack st
  (resolved : TypeRef) (schema : ZodSchema) :
  resolveType this type = Return resolved →
  zodSchema resolved = Some schema →
  let r := exploreModelSchema orgExploreModelSchema this type schemas schemaRefsStack st in
  schemas_after r = schemas ∧
  schemaRefsStack_after r = default [] schemaRefsStack ∧
  world (state_after r) = world st ∧
  ∀ n, n ≠ name resolved → registry (state_after r) !! n = registry st !! n.
Proof.
  intros Hres Hz. unfold exploreModelSchema. rewrite Hres, Hz. simpl.
  repeat split. intros n Hn. unfold register. by apply lookup_insert_ne.
Qed.

(** C8. Two marked types with one name, explored one after the other: the
    registry is left as if only the second had been registered, and the
    component map generated from it afterwards has that name once, with the
    schema generated from the type explored last. *)
Theorem later_registration_overwrites
  (orgExploreModelSchema : ExploreModelSchema) this type1 type2 schemas schemaRefsStack st
  (resolved1 resolved2 : TypeRef) (schema1 schema2 : ZodSchema) :
  resolveType this type1 = Return resolved1 →
  resolveType this type2 = Return resolved2 →
  zodSchema resolved1 = Some schema1 →
  zodSchema resolved2 = Some schema2 →
  name resolved1 = name resolved2 →
  let r1 := exploreModelSchema orgExploreModelSchema this type1 schemas schemaRefsStack st in
  let r2 := exploreModelSchema orgExploreModelSchema this type2
              (schemas_after r1) (Some (schemaRefsStack_after r1)) (state_after r1) in
  let generated := registryComponents (registry (state_after r2)) in
  registry (state_after r2) = register (name resolved2) schema2 (registry st) ∧
  get (name resolved2) generated = Some (generateSchema schema2) ∧
  NoDup (keys generated).
Proof.
  intros Hres1 Hres2 Hz1 Hz2 Hname. unfold exploreModelSchema.
  rewrite Hres1, Hz1. simpl. rewrite Hres2, Hz2. simpl.
  split; [|split; [|apply NoDup_keys_registryComponents]].
  - unfold register. rewrite Hname. apply insert_insert_eq.
  - rewrite get_registryComponents. unfold register. by rewrite lookup_insert_eq.
Qed.

(** ** exploreModelSchema on any other type *)

(** C2, as the code has it. When the resolved type carries no [zodSchema],
    the patched [exploreModelSchema] is the original called on the resolved
    type, the same schema map and the refs stack, an empty one when the
    caller passed none: same result, same effects. *)
Theorem exploreModelSchema_delegates_resolved_type
  (orgExploreModelSchema : ExploreModelSchema) this type schemas schemaRefsStack st
  (resolved : TypeRef) :
  resolveType this type = Return resolved →
  zodSchema resolved = None →
  exploreModelSchema orgExploreModelSchema this type schemas schemaRefsStack st =
    orgExploreModelSchema this resolved schemas (Some (default [] schemaRefsStack)) st.
Proof.
  intros Hres Hz. unfold exploreModelSchema. by rewrite Hres, Hz.
Qed.

(** For a type that is not a deferred reference, called with a refs stack,
    these are the caller's own arguments. *)
Lemma exploreModelSchema_delegates_plain_type
  (orgExploreModelSchema : ExploreModelSchema) this type schemas stack st :
  isLazyTypeFunc this type = false →
  zodSchema type = None →
  exploreModelSchema orgExploreModelSchema this type schemas (Some stack) st =
    orgExploreModelSchema this type schemas (Some stack) st.
Proof.
  intros Hlazy Hz. unfold exploreModelSchema, resolveType. by rewrite Hlazy, Hz.
Qed.

(** A deferred reference that cannot be called: the patched method throws
    before the original is reached. *)
Lemma exploreModelSchema_resolution_throws
  (orgExploreModelSchema : ExploreModelSchema) this type schemas schemaRefsStack st e :
  resolveType this type = Throw e →
  returned (exploreModelSchema orgExploreModelSchema this type schemas schemaRefsStack st)
    = Throw e.
Proof. intros Hres. unfold exploreModelSchema. by rewrite Hres. Qed.

(** ** scanApplication: merge and frame *)

(** C3. A name present both in the schema map of the original scan and in
    the registry-derived map reads, in the merged map and in the document
    returned, as in the registry-derived map, whatever the sort. *)
Theorem scanApplication_registry_wins_collision sort
  (orgScanApplication : ScanApplication) this app options st
  (openAPIObject : OpenAPIObject) st' k (V1 V2 : SchemaObject) :
  orgScanApplication this app options st = (Return openAPIObject, st') →
  get k (schemas (components openAPIObject)) = Some V1 →
  get k (registryComponents (registry st')) = Some V2 →
  get k (mergedSchemas openAPIObject
           (generateComponents {| generator_definitions := definitions (registry st') |}))
    = Some V2 ∧
  ∃ final,
    scanApplication sort orgScanApplication this app options st = (Return final, st') ∧
    get k (schemas (components final)) = Some V2.
Proof.
  intros Horg _ Hgen.
  pose proof (get_mergedSchemas_registry openAPIObject _ _ _ Hgen) as Hmerged.
  split; [done|]. eexists. split; [by apply scanApplication_Return|].
  simpl. rewrite get_sortedSchemas by apply NoDup_keys_mergedSchemas. done.
Qed.

(** C4. Whatever the sort, the map the sort step leaves has the keys of the
    merged map, each once, and every key reads as before. *)
Theorem sort_step_preserves_entries (sort : string)
  (openAPIObject : OpenAPIObject) (doc : GeneratedDocument) :
  let merged := mergedSchemas openAPIObject doc in
  keys (sortedSchemas sort merged) ≡ₚ keys merged ∧
  ∀ k, get k (sortedSchemas sort merged) = get k merged.
Proof.
  intros merged. pose proof (NoDup_keys_mergedSchemas openAPIObject doc) as Hnd.
  split; [by apply keys_sortedSchemas | intros k; by apply get_sortedSchemas].
Qed.

(** C9. The document returned is the document of the original scan with
    [components.schemas] replaced: the other members of [components] and the
    other fields of the document are those of the original, and the state is
    as the original scan left it. *)
Theorem scanApplication_replaces_only_schemas sort
  (orgScanApplication : ScanApplication) this app options st
  (openAPIObject : OpenAPIObject) st' :
  orgScanApplication this app options st = (Return openAPIObject, st') →
  ∃ final,
    scanApplication sort orgScanApplication this app options st = (Return final, st') ∧
    final = set_components_schemas openAPIObject (schemas (components final)) ∧
    document_rest final = document_rest openAPIObject ∧
    components_rest (components final) = components_rest (components openAPIObject).
Proof.
  intros Horg. eexists. split; [by apply scanApplication_Return|]. done.
Qed.

(** ** scanApplication: the alpha sort *)

Lemma alphaCompare_le a b : (alphaCompare a b <= 0)%Z → keyLe a b.
Proof.
  unfold alphaCompare, keyLe. destruct (JSString.lt a.1 b.1) eqn:Hab.
  - intros _. right. by apply JSStringFacts.lt_spec.
  - destruct (JSString.lt b.1 a.1) eqn:Hba; [lia|]. intros _.
    destruct (JSStringFacts.not_lt_cases _ _ Hab) as [?|Hlt]; [by left|].
    apply JSStringFacts.lt_spec in Hlt. congruence.
Qed.

Lemma alphaCompare_gt a b : (0 < alphaCompare a b)%Z → keyLe b a.
Proof.
  unfold alphaCompare, keyLe. destruct (JSString.lt a.1 b.1); [lia|].
  destruct (JSString.lt b.1 a.1) eqn:Hba; [|lia].
  intros _. right. by apply JSStringFacts.lt_spec.
Qed.

Lemma keyLe_trans a b c : keyLe a b → keyLe b c → keyLe a c.
Proof.
  unfold keyLe. intros [Hab|Hab] [Hbc|Hbc].
  - left. congruence.
  - right. by rewrite Hab.
  - right. by rewrite <- Hbc.
  - right. by apply (JSStringFacts.compare_lt_trans a.1 b.1 c.1).
Qed.

Lemma keyLe_strict (l : list (string * SchemaObject)) :
  StronglySorted keyLe l → NoDup (keys l) →
  StronglySorted JSString.ordinal_lt (keys l).
Proof.
  induction 1 as [|a l Hsorted IH Hall]; [constructor|].
  change (keys (a :: l)) with (a.1 :: keys l). rewrite NoDup_cons.
  intros [Hnotin Hnd]. constructor; [by apply IH|].
  unfold keys. apply Forall_fmap. rewrite Forall_forall in Hall |- *.
  intros b Hb. destruct (Hall b Hb) as [Heq|Hlt]; [|done].
  exfalso. apply Hnotin. rewrite Heq. apply list_elem_of_fmap. by exists b.
Qed.

(** With no array index among the keys, the alpha branch leaves the sorted
    entries as they are: keys strictly ascending. *)
Lemma alpha_branch_ascending (m : list (string * SchemaObject)) :
  NoDup (keys m) →
  Forall (λ k, JSString.arrayIndex k = None) (keys m) →
  StronglySorted JSString.ordinal_lt (keys (sortedSchemas "alpha" m)).
Proof.
  intros Hnd Hidx. unfold sortedSchemas, Object_entries. simpl.
  set (l := Array_sort alphaCompare m).
  assert (Hp : keys l ≡ₚ keys m).
  { unfold keys, l. by rewrite ArraySortFacts.Array_sort_Permutation. }
  assert (Hnd' : NoDup (keys l)) by by rewrite Hp.
  assert (Hidx' : Forall (λ k, JSString.arrayIndex k = None) (keys l)) by by rewrite Hp.
  rewrite fromEntries_wellFormed by by apply orderedKeys_no_index.
  apply keyLe_strict; [|done].
  apply ArraySortFacts.Array_sort_StronglySorted;
    [apply alphaCompare_le | apply alphaCompare_gt | apply keyLe_trans].
Qed.

(** C5, as the code has it. With sort [alpha], and no array index among the
    names, the keys of the final schema map are strictly ascending by code
    unit; the keys b, A, c come out as A, b, c. *)
Theorem alpha_sort_ascending_without_index_keys
  (orgScanApplication : ScanApplication) this app options st
  (openAPIObject : OpenAPIObject) st' :
  orgScanApplication this app options st = (Return openAPIObject, st') →
  Forall (λ k, JSString.arrayIndex k = None)
    (keys (mergedSchemas openAPIObject
             (generateComponents
                {| generator_definitions := definitions (registry st') |}))) →
  (∃ final,
     scanApplication "alpha" orgScanApplication this app options st = (Return final, st') ∧
     StronglySorted JSString.ordinal_lt (keys (schemas (components final)))) ∧
  (∀ vb vA vc : SchemaObject,
     keys (sortedSchemas "alpha" [("b", vb); ("A", vA); ("c", vc)]) = ["A"; "b"; "c"]).
Proof.
  intros Horg Hidx. split; [|done].
  eexists. split; [by apply scanApplication_Return|]. simpl.
  apply alpha_branch_ascending; [apply NoDup_keys_mergedSchemas | done].
Qed.

(** ** scanApplication: no sort *)

Lemma sortedSchemas_default (options : Options) (m : list (string * SchemaObject)) :
  sort options ≠ Some "alpha" → sort options ≠ Some "localeCompare" →
  sortedSchemas (default "default" (sort options)) m = m.
Proof.
  intros Halpha Hlocale. unfold sortedSchemas. destruct (sort options) as [s|]; simpl.
  - destruct (String.eqb_spec s "alpha") as [->|_]; [done|].
    destruct (String.eqb_spec s "localeCompare") as [->|_]; done.
  - done.
Qed.

(** C6, as the code has it. With any sort other than [alpha] and
    [localeCompare], or none, the final schema map is the merged map itself.
    Its entries are those of the original scan in their order, followed by
    the registry-derived names not already present, in the order of the
    registry-derived map, when none of those names is an array index. *)
Theorem default_sort_keeps_merge_order (sortOption : Options)
  (orgScanApplication : ScanApplication) this app options st
  (openAPIObject : OpenAPIObject) st' :
  sort sortOption ≠ Some "alpha" →
  sort sortOption ≠ Some "localeCompare" →
  orgScanApplication this app options st = (Return openAPIObject, st') →
  wellFormed (schemas (components openAPIObject)) →
  (∀ k, k ∈ keys (registryComponents (registry st')) →
        k ∉ keys (schemas (components openAPIObject)) →
        JSString.arrayIndex k = None) →
  ∃ final,
    scanApplication (default "default" (sort sortOption)) orgScanApplication
      this app options st = (Return final, st') ∧
    schemas (components final) =
      mergedSchemas openAPIObject
        (generateComponents {| generator_definitions := definitions (registry st') |}) ∧
    keys (schemas (components final)) =
      keys (schemas (components openAPIObject)) ++
      filter (λ k, k ∉ keys (schemas (components openAPIObject)))
             (keys (registryComponents (registry st'))).
Proof.
  intros Halpha Hlocale Horg Hwf Hnew.
  eexists. split; [by apply scanApplication_Return|]. simpl.
  rewrite sortedSchemas_default by done. split; [done|].
  rewrite mergedSchemas_registry.
  change (assign [] (schemas (components openAPIObject)))
    with (Object_fromEntries (schemas (components openAPIObject))).
  rewrite (fromEntries_wellFormed _ Hwf).
  apply keys_assign_new; [apply NoDup_keys_registryComponents | done].
Qed.

(** ** patchNestjsSwagger *)

(** C7, at the README's way of calling, [patchNestjsSwagger({ ... })] with
    no second argument: the second parameter is a destructuring pattern
    with no default of its own, and the call throws before any module is
    looked for or touched. *)
Theorem patchNestjsSwagger_without_handles_throws
  (require : string → Outcome nat) (options : Options) (modules : gmap nat Module) :
  patchNestjsSwagger require (Some options) None modules =
    (Throw (TypeError "Cannot destructure property of undefined"), modules).
Proof. done. Qed.

(** With a second argument that names no module, even [{}], both are loaded
    from the framework's paths and patched in place. *)
Lemma patchNestjsSwagger_loads_missing_modules
  (require : string → Outcome nat) (options : Options) (modules : gmap nat Module)
  factoryAddress scannerAddress factoryModule scannerModule
  (orgExploreModelSchema : ExploreModelSchema) (orgScanApplication : ScanApplication) :
  require schemaObjectFactoryPath = Return factoryAddress →
  require swaggerScannerPath = Return scannerAddress →
  factoryAddress ≠ scannerAddress →
  modules !! factoryAddress = Some factoryModule →
  modules !! scannerAddress = Some scannerModule →
  SchemaObjectFactory_prototype_exploreModelSchema factoryModule
    = Some orgExploreModelSchema →
  SwaggerScanner_prototype_scanApplication scannerModule = Some orgScanApplication →
  ∃ patched,
    patchNestjsSwagger require (Some options)
      (Some {| schemaObjectFactoryModule := None; swaggerScannerModule := None |})
      modules = (Return new_OpenAPIRegistry, patched) ∧
    (SchemaObjectFactory_prototype_exploreModelSchema <$> patched !! factoryAddress)
      = Some (Some (exploreModelSchema orgExploreModelSchema)) ∧
    (SwaggerScanner_prototype_scanApplication <$> patched !! scannerAddress)
      = Some (Some (scanApplication (default "default" (sort options))
                      orgScanApplication)) ∧
    ∀ a, a ≠ factoryAddress → a ≠ scannerAddress → patched !! a = modules !! a.
Proof.
  intros Hreq1 Hreq2 Hne Hm1 Hm2 Horg1 Horg2.
  unfold patchNestjsSwagger, mbind, Installer_bind, evaluate, moduleAt, setModule. simpl.
  rewrite Hreq1, Hreq2, Hm1. simpl. rewrite Horg1. simpl.
  rewrite lookup_insert_ne, Hm2 by done. simpl. rewrite Horg2. simpl.
  eexists. split; [done|]. repeat split.
  - by rewrite lookup_insert_ne, lookup_insert_eq by done.
  - by rewrite lookup_insert_eq.
  - intros a Ha1 Ha2. by rewrite !lookup_insert_ne by done.
Qed.

End Claims.

(** A pair is known once its first component is. *)
Lemma pair_from_fst {A B : Type} (p : A * B) (a : A) : p.1 = a → p = (a, p.2).
Proof. destruct p. simpl. by intros ->. Qed.

(** * The build of the cats application, run *)

Import JSObject.

(** C1 at [() => CatShelter]. *)
Lemma exploreModelSchema_registers_marked_type_witness :
  let type := Scenario.deferred Scenario.CatShelter in
  let r := @exploreModelSchema Scenario.platform Scenario.orgExploreModelSchema
             Scenario.factory type [] None Scenario.start in
  (@resolveType Scenario.platform Scenario.factory type = Return Scenario.CatShelter ∧
   zodSchema Scenario.CatShelter = Some 2) ∧
  returned r = Return (SchemaName "CatShelter") ∧
  registry (state_after r) !! "CatShelter" = Some 2.
Proof.
  split; [split; reflexivity|].
  apply (@exploreModelSchema_registers_marked_type Scenario.platform
           Scenario.orgExploreModelSchema Scenario.factory
           (Scenario.deferred Scenario.CatShelter) [] None Scenario.start
           Scenario.CatShelter 2); reflexivity.
Defined.

(** C10 at [User], with a schema map and a refs stack in use. *)
Lemma exploreModelSchema_marked_type_frame_witness :
  let r := @exploreModelSchema Scenario.platform Scenario.orgExploreModelSchema
             Scenario.factory Scenario.User [("Health", 0)] (Some ["Health"])
             Scenario.start in
  (@resolveType Scenario.platform Scenario.factory Scenario.User = Return Scenario.User ∧
   zodSchema Scenario.User = Some 1) ∧
  schemas_after r = [("Health", 0)] ∧
  schemaRefsStack_after r = ["Health"] ∧
  world (state_after r) = 0 ∧
  ∀ n, n ≠ "User" → registry (state_after r) !! n = registry Scenario.start !! n.
Proof.
  split; [split; reflexivity|].
  apply (@exploreModelSchema_marked_type_frame Scenario.platform
           Scenario.orgExploreModelSchema Scenario.factory Scenario.User
           [("Health", 0)] (Some ["Health"]) Scenario.start Scenario.User 1);
    reflexivity.
Defined.

(** C8 at two classes named [User]. *)
Lemma later_registration_overwrites_witness :
  let r1 := @exploreModelSchema Scenario.platform Scenario.orgExploreModelSchema
              Scenario.factory Scenario.User [] None Scenario.start in
  let r2 := @exploreModelSchema Scenario.platform Scenario.orgExploreModelSchema
              Scenario.factory Scenario.UserAgain
              (schemas_after r1) (Some (schemaRefsStack_after r1)) (state_after r1) in
  (zodSchema Scenario.User = Some 1 ∧ zodSchema Scenario.UserAgain = Some 3 ∧
   name Scenario.User = name Scenario.UserAgain) ∧
  registry (state_after r2)
    = @register Scenario.platform "User" 3 (registry Scenario.start) ∧
  get "User" (registryComponents (registry (state_after r2))) = Some 103 ∧
  NoDup (keys (registryComponents (registry (state_after r2)))).
Proof.
  split; [repeat split|].
  apply (@later_registration_overwrites Scenario.platform
           Scenario.orgExploreModelSchema Scenario.factory Scenario.User
           Scenario.UserAgain [] None Scenario.start Scenario.User Scenario.UserAgain
           1 3); reflexivity.
Defined.

(** C2 as stated fails at a function named [type] whose result is again a
    function named [type], which returns [Health]: the patched method hands
    the original the result of the first call, which the original resolves
    once more; called directly, the original resolves once. *)
Lemma exploreModelSchema_delegation_type_differs :
  let type := Scenario.deferred (Scenario.deferred Scenario.Health) in
  let patched := @exploreModelSchema Scenario.platform Scenario.orgExploreModelSchema
                   Scenario.factory type [] (Some []) Scenario.start in
  let original := Scenario.orgExploreModelSchema
                    Scenario.factory type [] (Some []) Scenario.start in
  zodSchema type = None ∧
  @resolveType Scenario.platform Scenario.factory type
    = Return (Scenario.deferred Scenario.Health) ∧
  zodSchema (Scenario.deferred Scenario.Health) = None ∧
  returned patched = Return (SchemaName "Health") ∧
  returned original = Return (SchemaName "type") ∧
  patched ≠ original.
Proof.
  repeat split. intros Heq. apply (f_equal returned) in Heq. discriminate Heq.
Qed.

(** The amended C2 at the same reference. *)
Lemma exploreModelSchema_delegates_resolved_type_witness :
  let type := Scenario.deferred (Scenario.deferred Scenario.Health) in
  (@resolveType Scenario.platform Scenario.factory type
     = Return (Scenario.deferred Scenario.Health) ∧
   zodSchema (Scenario.deferred Scenario.Health) = None) ∧
  @exploreModelSchema Scenario.platform Scenario.orgExploreModelSchema
    Scenario.factory type [] None Scenario.start =
  Scenario.orgExploreModelSchema Scenario.factory
    (Scenario.deferred Scenario.Health) [] (Some []) Scenario.start.
Proof.
  split; [split; reflexivity|].
  apply (@exploreModelSchema_delegates_resolved_type Scenario.platform
           Scenario.orgExploreModelSchema Scenario.factory
           (Scenario.deferred (Scenario.deferred Scenario.Health)) [] None
           Scenario.start (Scenario.deferred Scenario.Health)); reflexivity.
Defined.

(** C3 at a scan that already describes [User] itself: the schema from the
    registry, 101, replaces the framework's, 0. *)
Lemma scanApplication_registry_wins_collision_witness :
  let org := Scenario.orgScanApplication [Scenario.User] [("User", 0); ("Health", 0)] in
  ∃ final st',
    @scanApplication Scenario.platform "alpha" org () () () Scenario.start
      = (Return final, st') ∧
    get "User" (schemas (components final)) = Some 101.
Proof.
  intros org.
  destruct (@scanApplication_registry_wins_collision Scenario.platform "alpha" org
              () () () Scenario.start
              (@Build_OpenAPIObject Scenario.platform
                 (@Build_ComponentsObject Scenario.platform
                    [("User", 0); ("Health", 0)] "parameters") "paths")
              (org () () () Scenario.start).2 "User" 0 101)
    as [_ [final [Hscan Hget]]].
  - apply pair_from_fst. reflexivity.
  - reflexivity.
  - reflexivity.
  - by exists final, (org () () () Scenario.start).2.
Defined.

(** C9 at the cats application. *)
Lemma scanApplication_replaces_only_schemas_witness :
  let org := Scenario.orgScanApplication
               [Scenario.Health; Scenario.User; Scenario.deferred Scenario.CatShelter] [] in
  ∃ final st',
    @scanApplication Scenario.platform "localeCompare" org () () () Scenario.start
      = (Return final, st') ∧
    document_rest final = "paths" ∧
    components_rest (components final) = "parameters".
Proof.
  intros org.
  destruct (@scanApplication_replaces_only_schemas Scenario.platform "localeCompare" org
              () () () Scenario.start
              (@Build_OpenAPIObject Scenario.platform
                 (@Build_ComponentsObject Scenario.platform [("Health", 0)] "parameters")
                 "paths")
              (org () () () Scenario.start).2)
    as [final [Hscan [_ [Hdoc Hcomp]]]].
  - apply pair_from_fst. reflexivity.
  - by exists final, (org () () () Scenario.start).2.
Defined.

(** C5 as stated fails at the names 9 and 10: the entries are sorted into
    10, 9, and the object built from them lists 9 before 10. *)
Lemma alpha_sort_index_keys_first :
  let org := Scenario.orgScanApplication [] [("9", 1); ("10", 2)] in
  let final := @Build_OpenAPIObject Scenario.platform
                 (@Build_ComponentsObject Scenario.platform
                    [("9", 1); ("10", 2)] "parameters") "paths" in
  (@scanApplication Scenario.platform "alpha" org () () () Scenario.start).1
    = Return final ∧
  Array_sort (@alphaCompare Scenario.platform) [("9", 1); ("10", 2)]
    = [("10", 2); ("9", 1)] ∧
  keys (schemas (components final)) = ["9"; "10"] ∧
  JSString.lt "10" "9" = true ∧
  ¬ StronglySorted JSString.ordinal_lt (keys (schemas (components final))).
Proof.
  intros org final. split; [reflexivity|]. repeat split.
  simpl. intros Hsorted. apply StronglySorted_inv in Hsorted as [_ Hall].
  apply Forall_cons in Hall as [Hlt _]. discriminate Hlt.
Qed.

(** The amended C5 at the cats application. *)
Lemma alpha_sort_ascending_without_index_keys_witness :
  let org := Scenario.orgScanApplication
               [Scenario.Health; Scenario.User; Scenario.deferred Scenario.CatShelter] [] in
  ∃ final st',
    @scanApplication Scenario.platform "alpha" org () () () Scenario.start
      = (Return final, st') ∧
    StronglySorted JSString.ordinal_lt (keys (schemas (components final))).
Proof.
  intros org.
  destruct (@alpha_sort_ascending_without_index_keys Scenario.platform org
              () () () Scenario.start
              (@Build_OpenAPIObject Scenario.platform
                 (@Build_ComponentsObject Scenario.platform [("Health", 0)] "parameters")
                 "paths")
              (org () () () Scenario.start).2)
    as [[final [Hscan Hsorted]] _].
  - apply pair_from_fst. reflexivity.
  - match goal with
    | |- Forall ?P ?l => let l' := eval vm_compute in l in change (Forall P l')
    end.
    repeat constructor.
  - by exists final, (org () () () Scenario.start).2.
Defined.

(** The keys it leaves. *)
Example alpha_sort_cats_application :
  let org := Scenario.orgScanApplication
               [Scenario.Health; Scenario.User; Scenario.deferred Scenario.CatShelter] [] in
  (@scanApplication Scenario.platform "alpha" org () () () Scenario.start).1 =
    Return (@Build_OpenAPIObject Scenario.platform
              (@Build_ComponentsObject Scenario.platform
                 [("CatShelter", 102); ("Health", 0); ("User", 101)] "parameters")
              "paths").
Proof. reflexivity. Qed.

(** C6 as stated fails at a registered schema named 404: with no sort, the
    merged map lists 404 before the entry of the original scan. *)
Lemma merge_order_index_key_first :
  let org := Scenario.orgScanApplication [Scenario.NotFound] [("x", 1)] in
  let scanned := @scanApplication Scenario.platform
                   (default "default" (sort {| sort := None |}))
                   org () () () Scenario.start in
  let final := @Build_OpenAPIObject Scenario.platform
                 (@Build_ComponentsObject Scenario.platform
                    [("404", 104); ("x", 1)] "parameters") "paths" in
  (org () () () Scenario.start).1
    = Return (@Build_OpenAPIObject Scenario.platform
                (@Build_ComponentsObject Scenario.platform [("x", 1)] "parameters")
                "paths") ∧
  scanned.1 = Return final ∧
  keys (registryComponents (registry scanned.2)) = ["404"] ∧
  keys (schemas (components final)) = ["404"; "x"] ∧
  keys (schemas (components final)) ≠
    keys [("x", 1)] ++
    filter (λ k, k ∉ keys [("x", 1)]) (keys (registryComponents (registry scanned.2))).
Proof.
  intros org scanned final.
  split; [reflexivity|]. split; [reflexivity|].
  split; [reflexivity|]. split; [reflexivity|].
  vm_compute. discriminate.
Qed.

(** The amended C6 at the cats application, no sort given. *)
Lemma default_sort_keeps_merge_order_witness :
  let org := Scenario.orgScanApplication
               [Scenario.Health; Scenario.User; Scenario.deferred Scenario.CatShelter] [] in
  ∃ final st',
    @scanApplication Scenario.platform (default "default" (sort {| sort := None |}))
      org () () () Scenario.start = (Return final, st') ∧
    keys (schemas (components final)) =
      ["Health"] ++
      filter (λ k, k ∉ ["Health"]) (keys (registryComponents (registry st'))).
Proof.
  intros org.
  destruct (@default_sort_keeps_merge_order Scenario.platform {| sort := None |} org
              () () () Scenario.start
              (@Build_OpenAPIObject Scenario.platform
                 (@Build_ComponentsObject Scenario.platform [("Health", 0)] "parameters")
                 "paths")
              (org () () () Scenario.start).2)
    as [final [Hscan [_ Hkeys]]].
  - discriminate.
  - discriminate.
  - apply pair_from_fst. reflexivity.
  - reflexivity.
  - intros k Hin _. vm_compute in Hin.
    apply elem_of_cons in Hin as [->|Hin]; [reflexivity|].
    apply elem_of_cons in Hin as [->|Hin]; [reflexivity|].
    by apply elem_of_nil in Hin.
  - by exists final, (org () () () Scenario.start).2.
Defined.


(** The whole of it: the installer called with [{ sort: 'alpha' }] and [{}],
    then the method now on the scanner's prototype, run in a state holding
    the registry the installer created. *)
Example patched_scan_of_cats_application :
  match @patchNestjsSwagger Scenario.platform Scenario.require
          (Some {| sort := Some "alpha" |})
          (Some {| schemaObjectFactoryModule := None; swaggerScannerModule := None |})
          Scenario.modules with
  | (Return registry, patched) =>
      match patched !! 1 with
      | Some {| SwaggerScanner_prototype_scanApplication := Some scan |} =>
          (scan () () () (@Build_State Scenario.platform registry 0)).1 =
            Return (@Build_OpenAPIObject Scenario.platform
                      (@Build_ComponentsObject Scenario.platform
                         [("CatShelter", 102); ("Health", 0); ("User", 101)]
                         "parameters")
                      "paths")
      | _ => False
      end
  | _ => False
  end.
Proof. reflexivity. Qed.

(** * More about objects and sorting *)

Module JSObjectLayoutFacts.

Import JSObject JSObjectFacts.

Section Layout.

Context {V : Type}.

Implicit Types (o src l : list (string * V)) (k : string) (v : V).

Lemma orderedKeys_NoDup ks : orderedKeys ks = true → NoDup ks.
Proof.
  induction ks as [|a ks IH]; simpl; [constructor|].
  rewrite andb_true_iff. intros [Hall Hord]. apply NoDup_cons. split; [|by apply IH].
  intros Hin. rewrite forallb_forall in Hall.
  apply list_elem_of_In, Hall in Hin. by apply precedes_ne in Hin.
Qed.

Lemma wellFormed_NoDup o : wellFormed o → NoDup (keys o).
Proof. apply orderedKeys_NoDup. Qed.

Lemma elem_of_keys_assign k o src :
  k ∈ keys (assign o src) ↔ k ∈ keys o ∨ k ∈ keys src.
Proof.
  rewrite <- !get_is_Some, get_assign.
  assert (Hrev : is_Some (get k (reverse src)) ↔ is_Some (get k src)).
  { rewrite !get_is_Some. unfold keys. by rewrite reverse_Permutation. }
  destruct (get k (reverse src)) as [w|] eqn:Hg.
  - split; [intros _; right; apply Hrev; eauto | eauto].
  - split; [by left|]. intros [?|Hsrc]; [done|].
    apply Hrev in Hsrc. by destruct Hsrc.
Qed.

(** *** The enumeration order is kept by every write *)

Lemma enumerationOrder_insertIndex n k v o :
  JSString.arrayIndex k = Some n →
  StronglySorted enumerationOrder (keys o) →
  StronglySorted enumerationOrder (keys (insertIndex n k v o)).
Proof.
  intros Hk. induction o as [|[k' v'] o IH]; simpl.
  - intros _. repeat constructor.
  - change (keys ((k', v') :: o)) with (k' :: keys o).
    intros Hs. apply StronglySorted_inv in Hs as [Hs Hall].
    destruct (JSString.arrayIndex k') as [m|] eqn:Hk'.
    + destruct (N.ltb_spec m n) as [Hlt|Hge].
      * change (keys ((k', v') :: insertIndex n k v o))
          with (k' :: keys (insertIndex n k v o)).
        constructor; [by apply IH|]. rewrite keys_insertIndex.
        constructor; [|done]. unfold enumerationOrder. rewrite Hk', Hk. lia.
      * change (keys ((k, v) :: (k', v') :: o)) with (k :: k' :: keys o).
        constructor; [by constructor|]. constructor.
        { unfold enumerationOrder. by rewrite Hk, Hk'. }
        eapply Forall_impl; [exact Hall|]. intros k''. unfold enumerationOrder.
        rewrite Hk', Hk. destruct (JSString.arrayIndex k''); [lia | done].
    + change (keys ((k, v) :: (k', v') :: o)) with (k :: k' :: keys o).
      constructor; [by constructor|]. constructor.
      { unfold enumerationOrder. by rewrite Hk, Hk'. }
      eapply Forall_impl; [exact Hall|]. intros k''. unfold enumerationOrder.
      rewrite Hk', Hk. by destruct (JSString.arrayIndex k'').
Qed.

Lemma enumerationOrder_snoc ks k :
  JSString.arrayIndex k = None →
  StronglySorted enumerationOrder ks →
  StronglySorted enumerationOrder (ks ++ [k]).
Proof.
  intros Hk. induction 1 as [|a ks Hs IH Hall]; simpl; [repeat constructor|].
  constructor; [done|]. apply Forall_app. split; [done|].
  constructor; [|constructor]. unfold enumerationOrder. rewrite Hk.
  by destruct (JSString.arrayIndex a).
Qed.

Lemma enumerationOrder_defineProperty k v o :
  StronglySorted enumerationOrder (keys o) →
  StronglySorted enumerationOrder (keys (defineProperty k v o)).
Proof.
  intros Hs. unfold defineProperty. destruct (get k o).
  - by rewrite keys_update.
  - destruct (JSString.arrayIndex k) eqn:Hk.
    + by apply enumerationOrder_insertIndex.
    + rewrite keys_snoc. by apply enumerationOrder_snoc.
Qed.

Lemma enumerationOrder_assign src : ∀ o,
  StronglySorted enumerationOrder (keys o) →
  StronglySorted enumerationOrder (keys (assign o src)).
Proof.
  induction src as [|[k v] src IH]; intros o Hs; [done|].
  rewrite assign_cons. by apply IH, enumerationOrder_defineProperty.
Qed.

Lemma enumerationOrder_fromEntries l :
  StronglySorted enumerationOrder (keys (Object_fromEntries l)).
Proof. apply enumerationOrder_assign. constructor. Qed.

Lemma enumerationOrder_spread (sources : list (option (list (string * V)))) :
  StronglySorted enumerationOrder (keys (spread sources)).
Proof.
  unfold spread.
  assert (Hnil : StronglySorted enumerationOrder (keys (@nil (string * V))))
    by constructor.
  revert Hnil. generalize (@nil (string * V)).
  induction sources as [|[s|] sources IH]; intros o Hs; simpl.
  - done.
  - by apply IH, enumerationOrder_assign.
  - by apply IH.
Qed.

(** *** The keys that are not array indices keep their creation order *)

Lemma nonIndexKeys_snoc o k v :
  nonIndexKeys (o ++ [(k, v)]) =
    nonIndexKeys o ++ (if decide (JSString.arrayIndex k = None) then [k] else []).
Proof.
  unfold nonIndexKeys. by rewrite keys_snoc, filter_app.
Qed.

Lemma nonIndexKeys_insertIndex n k v o :
  JSString.arrayIndex k = Some n → nonIndexKeys (insertIndex n k v o) = nonIndexKeys o.
Proof.
  intros Hk. unfold nonIndexKeys.
  assert (Hskip : ∀ ks, filter (λ k, JSString.arrayIndex k = None) (k :: ks)
                        = filter (λ k, JSString.arrayIndex k = None) ks).
  { intros ks. rewrite filter_cons_False; [done | by rewrite Hk]. }
  induction o as [|[k' v'] o IH]; simpl.
  - apply (Hskip []).
  - destruct (JSString.arrayIndex k') as [m|] eqn:Hk'.
    + destruct (m <? n)%N.
      * change (keys ((k', v') :: insertIndex n k v o))
          with (k' :: keys (insertIndex n k v o)).
        change (keys ((k', v') :: o)) with (k' :: keys o).
        by rewrite !filter_cons, IH.
      * apply Hskip.
    + apply Hskip.
Qed.

Lemma nonIndexKeys_defineProperty k v o :
  k ∉ keys o →
  nonIndexKeys (defineProperty k v o) =
    nonIndexKeys o ++ (if decide (JSString.arrayIndex k = None) then [k] else []).
Proof.
  intros Hnotin. apply get_None in Hnotin. unfold defineProperty. rewrite Hnotin.
  destruct (JSString.arrayIndex k) as [n|] eqn:Hk.
  - rewrite (nonIndexKeys_insertIndex n) by done.
    rewrite decide_False by done. by rewrite app_nil_r.
  - rewrite nonIndexKeys_snoc, Hk. by rewrite decide_True.
Qed.

Lemma nonIndexKeys_fromEntries l :
  NoDup (keys l) → nonIndexKeys (Object_fromEntries l) = nonIndexKeys l.
Proof.
  induction l as [|[k v] l IH] using rev_ind; [done|].
  rewrite keys_snoc. intros Hnd. apply NoDup_app in Hnd as (Hnd & Hnotin & _).
  unfold Object_fromEntries in *. rewrite assign_snoc.
  rewrite nonIndexKeys_defineProperty.
  - by rewrite IH, nonIndexKeys_snoc.
  - rewrite elem_of_keys_assign. intros [Hnil|Hin]; [by apply elem_of_nil in Hnil|].
    apply (Hnotin k Hin). apply list_elem_of_here.
Qed.

End Layout.

End JSObjectLayoutFacts.

Module ArraySortMoreFacts.

Import JSObject JSObjectFacts.

Section Rearranged.

Context {V : Type}.

Implicit Types (o l : list (string * V)) (k : string) (v : V).

Lemma insertIndex_Permutation n k v o : insertIndex n k v o ≡ₚ (k, v) :: o.
Proof.
  induction o as [|[k' v'] o IH]; simpl; [done|].
  destruct (JSString.arrayIndex k') as [m|]; [|done].
  destruct (m <? n)%N; [|done]. rewrite IH. apply perm_swap.
Qed.

Lemma defineProperty_new_Permutation k v o :
  k ∉ keys o → defineProperty k v o ≡ₚ (k, v) :: o.
Proof.
  intros Hnotin. apply get_None in Hnotin. unfold defineProperty. rewrite Hnotin.
  destruct (JSString.arrayIndex k); [apply insertIndex_Permutation|].
  by rewrite Permutation_app_comm.
Qed.

(** An object built from entries with no key twice holds those entries. *)
Lemma fromEntries_Permutation l : NoDup (keys l) → Object_fromEntries l ≡ₚ l.
Proof.
  induction l as [|[k v] l IH] using rev_ind; [done|].
  rewrite keys_snoc. intros Hnd. apply NoDup_app in Hnd as (Hnd & Hnotin & _).
  unfold Object_fromEntries in *. rewrite assign_snoc.
  rewrite defineProperty_new_Permutation.
  - rewrite (IH Hnd). by rewrite Permutation_app_comm.
  - rewrite JSObjectLayoutFacts.elem_of_keys_assign.
    intros [Hnil|Hin]; [by apply elem_of_nil in Hnil|].
    apply (Hnotin k Hin). apply list_elem_of_here.
Qed.

Lemma StronglySorted_filter {A : Type} (R : A → A → Prop) (P : A → Prop)
  `{∀ x, Decision (P x)} (l : list A) :
  StronglySorted R l → StronglySorted R (filter P l).
Proof.
  induction 1 as [|a l Hs IH Hall]; [constructor|].
  rewrite filter_cons. destruct (decide (P a)); [|done].
  constructor; [done|]. rewrite Forall_forall in Hall |- *.
  intros x Hx. apply list_elem_of_filter in Hx as [_ Hx]. by apply Hall.
Qed.

End Rearranged.

End ArraySortMoreFacts.

(** * More about the patched methods *)

Section Coverage.

Context `{Platform}.

Import JSObject JSObjectFacts JSObjectLayoutFacts ArraySortMoreFacts.

Implicit Types (st : State) (k : string).

(** ** The alpha sort gives one order *)

Lemma Array_sort_alpha_sorted (l : list (string * SchemaObject)) :
  StronglySorted keyLe (Array_sort alphaCompare l).
Proof.
  apply ArraySortFacts.Array_sort_StronglySorted;
    [apply alphaCompare_le | apply alphaCompare_gt | apply keyLe_trans].
Qed.

Lemma keyLe_antisym (a b : string * SchemaObject) : keyLe a b → keyLe b a → a.1 = b.1.
Proof.
  intros [?|Hab] [?|Hba]; try done.
  apply JSStringFacts.lt_asym in Hab. apply JSStringFacts.lt_spec in Hba. congruence.
Qed.

(** Entries with no key twice have one alpha-sorted arrangement. *)
Lemma alpha_sorted_unique (l1 l2 : list (string * SchemaObject)) :
  NoDup (keys l1) → l1 ≡ₚ l2 →
  StronglySorted keyLe l1 → StronglySorted keyLe l2 → l1 = l2.
Proof.
  intros Hnd Hp Hs1 Hs2.
  apply (StronglySorted_unique_strong keyLe); [|done..].
  intros [k1 v1] [k2 v2] Hin1 Hin2 Hle Hge.
  pose proof (keyLe_antisym _ _ Hle Hge) as Hk. simpl in Hk. subst k2.
  rewrite <- Hp in Hin2.
  apply (elem_get _ _ _ Hnd) in Hin1. apply (elem_get _ _ _ Hnd) in Hin2. congruence.
Qed.

Lemma Array_sort_alpha_Permutation (l1 l2 : list (string * SchemaObject)) :
  NoDup (keys l1) → l1 ≡ₚ l2 →
  Array_sort alphaCompare l1 = Array_sort alphaCompare l2.
Proof.
  intros Hnd Hp. apply alpha_sorted_unique; try apply Array_sort_alpha_sorted.
  - unfold keys. by rewrite ArraySortFacts.Array_sort_Permutation.
  - by rewrite !ArraySortFacts.Array_sort_Permutation.
Qed.

Lemma NoDup_keys_sortedSchemas sort (m : list (string * SchemaObject)) :
  NoDup (keys m) → NoDup (keys (sortedSchemas sort m)).
Proof. intros Hnd. by rewrite keys_sortedSchemas. Qed.

(** X6. With sort [alpha] the final schema map does not depend on the order
    in which the merge produced its entries: two merged maps holding the same
    entries give the same map, entry for entry and in the same order. *)
Theorem alpha_sort_order_independent
  (openAPIObject1 openAPIObject2 : OpenAPIObject) (doc1 doc2 : GeneratedDocument) :
  mergedSchemas openAPIObject1 doc1 ≡ₚ mergedSchemas openAPIObject2 doc2 →
  sortedSchemas "alpha" (mergedSchemas openAPIObject1 doc1) =
  sortedSchemas "alpha" (mergedSchemas openAPIObject2 doc2).
Proof.
  intros Hp. unfold sortedSchemas, Object_entries. simpl. f_equal.
  apply Array_sort_alpha_Permutation; [apply NoDup_keys_mergedSchemas | done].
Qed.

(** X7. Sorting with [alpha] what the alpha branch has produced changes
    nothing. *)
Theorem alpha_sort_idempotent (openAPIObject : OpenAPIObject) (doc : GeneratedDocument) :
  let final := sortedSchemas "alpha" (mergedSchemas openAPIObject doc) in
  sortedSchemas "alpha" final = final.
Proof.
  pose proof (NoDup_keys_mergedSchemas openAPIObject doc) as Hnd.
  generalize dependent (mergedSchemas openAPIObject doc). intros m Hnd final.
  unfold final, sortedSchemas, Object_entries. simpl.
  set (S := Array_sort alphaCompare m).
  assert (HndS : NoDup (keys S)).
  { unfold keys, S. by rewrite ArraySortFacts.Array_sort_Permutation. }
  f_equal. rewrite (Array_sort_alpha_Permutation (Object_fromEntries S) S).
  - apply alpha_sorted_unique; [| | apply Array_sort_alpha_sorted..].
    + unfold keys. by rewrite ArraySortFacts.Array_sort_Permutation.
    + apply ArraySortFacts.Array_sort_Permutation.
  - apply NoDup_keys_fromEntries.
  - by apply fromEntries_Permutation.
Qed.

(** X8. With sort [alpha], whatever the names: the final schema map lists
    its array-index names first, in ascending numeric order, and after them
    all its other names in ascending ordinal order. *)
Theorem alpha_sort_layout
  (orgScanApplication : ScanApplication) this app options st
  (openAPIObject : OpenAPIObject) st' :
  orgScanApplication this app options st = (Return openAPIObject, st') →
  ∃ final,
    scanApplication "alpha" orgScanApplication this app options st = (Return final, st') ∧
    StronglySorted enumerationOrder (keys (schemas (components final))) ∧
    StronglySorted JSString.ordinal_lt (nonIndexKeys (schemas (components final))).
Proof.
  intros Horg. eexists. split; [by apply scanApplication_Return|]. simpl.
  set (m := mergedSchemas _ _).
  assert (Hnd : NoDup (keys m)) by apply NoDup_keys_mergedSchemas.
  unfold sortedSchemas, Object_entries. simpl.
  set (S := Array_sort alphaCompare m).
  assert (HndS : NoDup (keys S)).
  { unfold keys, S. by rewrite ArraySortFacts.Array_sort_Permutation. }
  split; [apply enumerationOrder_fromEntries|].
  rewrite nonIndexKeys_fromEntries by done. unfold nonIndexKeys.
  apply StronglySorted_filter. apply keyLe_strict; [apply Array_sort_alpha_sorted | done].
Qed.

(** ** The localeCompare sort *)

(** X9. With sort [localeCompare], a comparator that is consistent (a
    positive answer one way means a non-positive one the other way, and
    non-positive answers chain) and no array index among the names: every
    name of the final schema map compares non-positive with every name
    after it. *)
Theorem localeCompare_sort_follows_comparator
  (orgScanApplication : ScanApplication) this app options st
  (openAPIObject : OpenAPIObject) st' :
  (∀ a b, (0 < localeCompare a b)%Z → (localeCompare b a <= 0)%Z) →
  (∀ a b c, (localeCompare a b <= 0)%Z → (localeCompare b c <= 0)%Z →
            (localeCompare a c <= 0)%Z) →
  orgScanApplication this app options st = (Return openAPIObject, st') →
  Forall (λ k, JSString.arrayIndex k = None)
    (keys (mergedSchemas openAPIObject
             (generateComponents
                {| generator_definitions := definitions (registry st') |}))) →
  ∃ final,
    scanApplication "localeCompare" orgScanApplication this app options st
      = (Return final, st') ∧
    StronglySorted (λ a b, (localeCompare a b <= 0)%Z)
      (keys (schemas (components final))).
Proof.
  intros Hflip Hchain Horg Hidx.
  eexists. split; [by apply scanApplication_Return|]. simpl.
  set (m := mergedSchemas _ _) in *.
  assert (Hnd : NoDup (keys m)) by apply NoDup_keys_mergedSchemas.
  unfold sortedSchemas, Object_entries. simpl.
  set (S := Array_sort localeCompareKeys m).
  assert (Hp : keys S ≡ₚ keys m).
  { unfold keys, S. by rewrite ArraySortFacts.Array_sort_Permutation. }
  rewrite fromEntries_wellFormed.
  - unfold keys.
    apply (StronglySorted_fmap fst
             (λ a b : string * SchemaObject, (localeCompare a.1 b.1 <= 0)%Z));
      [by intros x y|].
    apply (ArraySortFacts.Array_sort_StronglySorted localeCompareKeys
             (λ a b, (localeCompare a.1 b.1 <= 0)%Z)).
    + by intros x y.
    + intros x y. apply Hflip.
    + intros x y z. apply Hchain.
  - apply orderedKeys_no_index; by rewrite Hp.
Qed.

(** ** What the final schema map holds *)

Lemma elem_of_keys_mergedSchemas (o : OpenAPIObject) (doc : GeneratedDocument) k :
  k ∈ keys (mergedSchemas o doc) ↔
  k ∈ keys (schemas (components o)) ∨ k ∈ keys (default [] (components_schemas doc)).
Proof.
  unfold mergedSchemas, spread. simpl.
  destruct (components_schemas doc) as [generated|]; simpl.
  - rewrite !elem_of_keys_assign.
    split; [intros [[Hnil|?]|?]; [by apply elem_of_nil in Hnil | by left | by right]|].
    intros [?|?]; [left; by right | by right].
  - rewrite elem_of_keys_assign.
    split; [intros [Hnil|?]; [by apply elem_of_nil in Hnil | by left]|].
    intros [?|Hnil]; [by right | by apply elem_of_nil in Hnil].
Qed.

Lemma get_mergedSchemas_original (o : OpenAPIObject) (doc : GeneratedDocument) k :
  wellFormed (schemas (components o)) →
  k ∉ keys (default [] (components_schemas doc)) →
  get k (mergedSchemas o doc) = get k (schemas (components o)).
Proof.
  intros Hwf Hnotin. unfold mergedSchemas, spread. simpl.
  change (assign [] (schemas (components o)))
    with (Object_fromEntries (schemas (components o))).
  rewrite (fromEntries_wellFormed _ Hwf).
  destruct (components_schemas doc) as [generated|]; simpl in *; [|done].
  rewrite get_assign.
  assert (Hrev : get k (reverse generated) = None).
  { apply get_None. unfold keys in *. by rewrite reverse_Permutation. }
  by rewrite Hrev.
Qed.

(** X1. The merge and the sort drop no schema and invent none: for every
    sort, every document of the original scan and every document the
    generator may return, the final schema map has no name twice, and its
    names are those of the original scan's map together with those of the
    generated components. *)
Theorem merge_and_sort_keep_every_name (sort : string)
  (openAPIObject : OpenAPIObject) (doc : GeneratedDocument) :
  let final := sortedSchemas sort (mergedSchemas openAPIObject doc) in
  NoDup (keys final) ∧
  ∀ k, k ∈ keys final ↔
       k ∈ keys (schemas (components openAPIObject)) ∨
       k ∈ keys (default [] (components_schemas doc)).
Proof.
  intros final. unfold final.
  split; [apply NoDup_keys_sortedSchemas, NoDup_keys_mergedSchemas|].
  intros k. rewrite keys_sortedSchemas by apply NoDup_keys_mergedSchemas.
  apply elem_of_keys_mergedSchemas.
Qed.

(** X2. A schema of the original scan whose name is not among the generated
    components keeps its value in the final schema map, for every sort and
    every document the generator may return. *)
Theorem merge_and_sort_keep_unshadowed_original (sort : string)
  (openAPIObject : OpenAPIObject) (doc : GeneratedDocument) k :
  wellFormed (schemas (components openAPIObject)) →
  k ∉ keys (default [] (components_schemas doc)) →
  get k (sortedSchemas sort (mergedSchemas openAPIObject doc)) =
    get k (schemas (components openAPIObject)).
Proof.
  intros Hwf Hnotin. rewrite get_sortedSchemas by apply NoDup_keys_mergedSchemas.
  by apply get_mergedSchemas_original.
Qed.

(** X3. Every schema the registry holds when the original scan returns is
    in the final document under its name, as the generator renders it,
    whatever the sort and whatever the original scan had under that name. *)
Theorem scanApplication_publishes_registered_schema sort
  (orgScanApplication : ScanApplication) this app options st
  (openAPIObject : OpenAPIObject) st' k (schema : ZodSchema) :
  orgScanApplication this app options st = (Return openAPIObject, st') →
  registry st' !! k = Some schema →
  ∃ final,
    scanApplication sort orgScanApplication this app options st = (Return final, st') ∧
    get k (schemas (components final)) = Some (generateSchema schema).
Proof.
  intros Horg Hreg. eexists. split; [by apply scanApplication_Return|]. simpl.
  rewrite get_sortedSchemas by apply NoDup_keys_mergedSchemas.
  apply get_mergedSchemas_registry. by rewrite get_registryComponents, Hreg.
Qed.

(** X4. A failure of the original scan is the failure of the patched scan:
    the same exception, the state as the original left it, whatever the
    sort and whatever the registry holds. *)
Theorem scanApplication_propagates_original_failure sort
  (orgScanApplication : ScanApplication) this app options st e st' :
  orgScanApplication this app options st = (Throw e, st') →
  scanApplication sort orgScanApplication this app options st = (Throw e, st').
Proof. intros Horg. unfold scanApplication. by rewrite Horg. Qed.

(** With no sort, the final schema map is the merged map, whatever its
    names. *)
Lemma scanApplication_without_sort_returns_merged (sortOption : Options)
  (orgScanApplication : ScanApplication) this app options st
  (openAPIObject : OpenAPIObject) st' :
  sort sortOption ≠ Some "alpha" →
  sort sortOption ≠ Some "localeCompare" →
  orgScanApplication this app options st = (Return openAPIObject, st') →
  scanApplication (default "default" (sort sortOption)) orgScanApplication
    this app options st =
    (Return (set_components_schemas openAPIObject
               (mergedSchemas openAPIObject
                  (generateComponents
                     {| generator_definitions := definitions (registry st') |}))),
     st').
Proof.
  intros Halpha Hlocale Horg.
  rewrite (scanApplication_Return _ _ _ _ _ _ _ _ Horg).
  by rewrite sortedSchemas_default.
Qed.

(** X5. With nothing registered and no sort, the patched scan is the
    original scan: same document, same state. *)
Theorem scanApplication_transparent_without_registrations (sortOption : Options)
  (orgScanApplication : ScanApplication) this app options st
  (openAPIObject : OpenAPIObject) st' :
  sort sortOption ≠ Some "alpha" →
  sort sortOption ≠ Some "localeCompare" →
  orgScanApplication this app options st = (Return openAPIObject, st') →
  wellFormed (schemas (components openAPIObject)) →
  registry st' = ∅ →
  scanApplication (default "default" (sort sortOption)) orgScanApplication
    this app options st = (Return openAPIObject, st').
Proof.
  intros Halpha Hlocale Horg Hwf Hempty.
  rewrite (scanApplication_Return _ _ _ _ _ _ _ _ Horg).
  rewrite sortedSchemas_default by done.
  rewrite mergedSchemas_registry, Hempty.
  change (assign [] (schemas (components openAPIObject)))
    with (Object_fromEntries (schemas (components openAPIObject))).
  rewrite (fromEntries_wellFormed _ Hwf).
  unfold registryComponents, generateComponents, definitions. simpl.
  rewrite map_to_list_empty. simpl.
  by destruct openAPIObject as [[? ?] ?].
Qed.

(** X11. The registry is not cleared between scans: a schema registered
    during one scan is in the document of the next scan too, as long as the
    next original scan leaves it registered. *)
Theorem registrations_survive_across_scans sort
  (firstScan secondScan : ScanApplication) this app options st
  (document1 document2 : OpenAPIObject) st1 st2 k (schema : ZodSchema) :
  firstScan this app options st = (Return document1, st1) →
  registry st1 !! k = Some schema →
  secondScan this app options st1 = (Return document2, st2) →
  registry st2 !! k = Some schema →
  ∃ final1 final2,
    scanApplication sort firstScan this app options st = (Return final1, st1) ∧
    scanApplication sort secondScan this app options st1 = (Return final2, st2) ∧
    get k (schemas (components final2)) = Some (generateSchema schema).
Proof.
  intros Hfirst Hreg1 Hsecond Hreg2. eexists _, _.
  split; [by apply scanApplication_Return|].
  split; [by apply scanApplication_Return|]. simpl.
  rewrite get_sortedSchemas by apply NoDup_keys_mergedSchemas.
  apply get_mergedSchemas_registry. by rewrite get_registryComponents, Hreg2.
Qed.

(** ** When the original explore operation is not reached *)

(** X10. The original explore operation is reached only when the
    reference resolves to a type without [zodSchema]: when resolution throws
    or the resolved type carries the marker, any two originals give the
    same result and the same effects. *)
Theorem exploreModelSchema_original_unreached
  (original1 original2 : ExploreModelSchema) this type schemas schemaRefsStack st :
  (∀ resolved, resolveType this type = Return resolved →
               is_Some (zodSchema resolved)) →
  exploreModelSchema original1 this type schemas schemaRefsStack st =
  exploreModelSchema original2 this type schemas schemaRefsStack st.
Proof.
  intros Hmarked. unfold exploreModelSchema.
  destruct (resolveType this type) as [resolved|e]; [|done].
  by destruct (Hmarked resolved eq_refl) as [schema ->].
Qed.

(** ** The installer *)

Lemma patchNestjsSwagger_resolved (require : string → Outcome nat)
  (options : Options) (handles : ModuleHandles) (modules : gmap nat Module)
  factoryAddress scannerAddress :
  withDefault (schemaObjectFactoryModule handles) (require schemaObjectFactoryPath)
    = Return factoryAddress →
  withDefault (swaggerScannerModule handles) (require swaggerScannerPath)
    = Return scannerAddress →
  patchNestjsSwagger require (Some options) (Some handles) modules =
    match prototypeOf (modules !! factoryAddress) with
    | Throw e => (Throw e, modules)
    | Return factoryModule =>
      match prototypeOf (SchemaObjectFactory_prototype_exploreModelSchema factoryModule) with
      | Throw e => (Throw e, modules)
      | Return orgExploreModelSchema =>
        let modules1 :=
          <[factoryAddress := {|
              SchemaObjectFactory_prototype_exploreModelSchema :=
                Some (exploreModelSchema orgExploreModelSchema);
              SwaggerScanner_prototype_scanApplication :=
                SwaggerScanner_prototype_scanApplication factoryModule |}]> modules in
        match prototypeOf (modules1 !! scannerAddress) with
        | Throw e => (Throw e, modules1)
        | Return scannerModule =>
          match prototypeOf (SwaggerScanner_prototype_scanApplication scannerModule) with
          | Throw e => (Throw e, modules1)
          | Return orgScanApplication =>
              (Return new_OpenAPIRegistry,
               <[scannerAddress := {|
                   SchemaObjectFactory_prototype_exploreModelSchema :=
                     SchemaObjectFactory_prototype_exploreModelSchema scannerModule;
                   SwaggerScanner_prototype_scanApplication :=
                     Some (scanApplication (default "default" (sort options))
                             orgScanApplication) |}]> modules1)
          end
        end
      end
    end.
Proof.
  intros Hfactory Hscanner.
  unfold patchNestjsSwagger, mbind, Installer_bind, evaluate, moduleAt, setModule. simpl.
  rewrite Hfactory, Hscanner.
  destruct (prototypeOf (modules !! factoryAddress)) as [factoryModule|e]; [|done].
  destruct (prototypeOf (SchemaObjectFactory_prototype_exploreModelSchema factoryModule))
    as [orgExplore|e]; [|done].
  simpl.
  destruct (prototypeOf (_ !! scannerAddress)) as [scannerModule|e]; [|done].
  by destruct (prototypeOf (SwaggerScanner_prototype_scanApplication scannerModule)).
Qed.

(** X12. Whether the two modules are passed in or loaded, and whether they
    are two modules or one module exporting both classes: the call returns
    an empty registry, leaves on the factory's prototype the wrapper of the
    method found there and on the scanner's prototype the wrapper of the
    method found there, with the sort option or ["default"], and touches no
    other module. *)
Theorem patchNestjsSwagger_installs_wrappers (require : string → Outcome nat)
  (options : Options) (handles : ModuleHandles) (modules : gmap nat Module)
  factoryAddress scannerAddress factoryModule scannerModule
  (orgExploreModelSchema : ExploreModelSchema) (orgScanApplication : ScanApplication) :
  withDefault (schemaObjectFactoryModule handles) (require schemaObjectFactoryPath)
    = Return factoryAddress →
  withDefault (swaggerScannerModule handles) (require swaggerScannerPath)
    = Return scannerAddress →
  modules !! factoryAddress = Some factoryModule →
  modules !! scannerAddress = Some scannerModule →
  SchemaObjectFactory_prototype_exploreModelSchema factoryModule
    = Some orgExploreModelSchema →
  SwaggerScanner_prototype_scanApplication scannerModule = Some orgScanApplication →
  ∃ patched,
    patchNestjsSwagger require (Some options) (Some handles) modules
      = (Return new_OpenAPIRegistry, patched) ∧
    (SchemaObjectFactory_prototype_exploreModelSchema <$> patched !! factoryAddress)
      = Some (Some (exploreModelSchema orgExploreModelSchema)) ∧
    (SwaggerScanner_prototype_scanApplication <$> patched !! scannerAddress)
      = Some (Some (scanApplication (default "default" (sort options))
                      orgScanApplication)) ∧
    ∀ a, a ≠ factoryAddress → a ≠ scannerAddress → patched !! a = modules !! a.
Proof.
  intros Hfactory Hscanner Hm1 Hm2 Horg1 Horg2.
  rewrite (patchNestjsSwagger_resolved _ _ _ _ _ _ Hfactory Hscanner).
  rewrite Hm1. simpl. rewrite Horg1. simpl.
  destruct (decide (factoryAddress = scannerAddress)) as [<-|Hne].
  - assert (scannerModule = factoryModule) as -> by congruence.
    rewrite lookup_insert_eq. simpl. rewrite Horg2. simpl.
    eexists. split; [done|]. rewrite !lookup_insert_eq. simpl. repeat split.
    intros a Ha _. by rewrite !lookup_insert_ne by done.
  - rewrite lookup_insert_ne, Hm2 by done. simpl. rewrite Horg2. simpl.
    eexists. split; [done|]. repeat split.
    + by rewrite lookup_insert_ne, lookup_insert_eq by done.
    + by rewrite lookup_insert_eq.
    + intros a Ha1 Ha2. by rewrite !lookup_insert_ne by done.
Qed.

(** X13. When both modules are passed in, the module loader is not used:
    the call does the same with any loader, even one that throws. *)
Theorem patchNestjsSwagger_injected_modules_skip_loader
  (require1 require2 : string → Outcome nat) (options : option Options)
  (modules : gmap nat Module) factoryAddress scannerAddress :
  let handles := Some {| schemaObjectFactoryModule := Some factoryAddress;
                         swaggerScannerModule := Some scannerAddress |} in
  patchNestjsSwagger require1 options handles modules =
  patchNestjsSwagger require2 options handles modules.
Proof. by destruct options. Qed.

(** X14. Nothing is patched before both modules are known: when a module
    that was not passed in cannot be loaded, the call throws the loader's
    exception and every module is as it was. *)
Theorem patchNestjsSwagger_loader_failure (require : string → Outcome nat)
  (options : Options) (handles : ModuleHandles) (modules : gmap nat Module) e :
  withDefault (schemaObjectFactoryModule handles) (require schemaObjectFactoryPath)
    = Throw e ∨
  (∃ factoryAddress,
     withDefault (schemaObjectFactoryModule handles) (require schemaObjectFactoryPath)
       = Return factoryAddress) ∧
  withDefault (swaggerScannerModule handles) (require swaggerScannerPath) = Throw e →
  patchNestjsSwagger require (Some options) (Some handles) modules = (Throw e, modules).
Proof.
  unfold patchNestjsSwagger, mbind, Installer_bind, evaluate. simpl.
  intros [Hfactory|[[a Hfactory] Hscanner]].
  - by rewrite Hfactory.
  - by rewrite Hfactory, Hscanner.
Qed.

(** X15. There is no rollback: when the scanner module does not export the
    class, the call throws a TypeError after the factory's prototype has
    been patched, and the factory stays patched. *)
Theorem patchNestjsSwagger_partial_install (require : string → Outcome nat)
  (options : Options) (handles : ModuleHandles) (modules : gmap nat Module)
  factoryAddress scannerAddress factoryModule scannerModule
  (orgExploreModelSchema : ExploreModelSchema) :
  withDefault (schemaObjectFactoryModule handles) (require schemaObjectFactoryPath)
    = Return factoryAddress →
  withDefault (swaggerScannerModule handles) (require swaggerScannerPath)
    = Return scannerAddress →
  modules !! factoryAddress = Some factoryModule →
  modules !! scannerAddress = Some scannerModule →
  SchemaObjectFactory_prototype_exploreModelSchema factoryModule
    = Some orgExploreModelSchema →
  SwaggerScanner_prototype_scanApplication scannerModule = None →
  ∃ patched,
    patchNestjsSwagger require (Some options) (Some handles) modules
      = (Throw (TypeError "Cannot read properties of undefined"), patched) ∧
    (SchemaObjectFactory_prototype_exploreModelSchema <$> patched !! factoryAddress)
      = Some (Some (exploreModelSchema orgExploreModelSchema)) ∧
    ∀ a, a ≠ factoryAddress → patched !! a = modules !! a.
Proof.
  intros Hfactory Hscanner Hm1 Hm2 Horg1 Horg2.
  rewrite (patchNestjsSwagger_resolved _ _ _ _ _ _ Hfactory Hscanner).
  rewrite Hm1. simpl. rewrite Horg1. simpl.
  destruct (decide (factoryAddress = scannerAddress)) as [<-|Hne].
  - assert (scannerModule = factoryModule) as -> by congruence.
    rewrite lookup_insert_eq. simpl. rewrite Horg2. simpl.
    eexists. split; [done|]. rewrite lookup_insert_eq. split; [done|].
    intros a Ha. by rewrite lookup_insert_ne.
  - rewrite lookup_insert_ne, Hm2 by done. simpl. rewrite Horg2. simpl.
    eexists. split; [done|]. rewrite lookup_insert_eq. split; [done|].
    intros a Ha. by rewrite lookup_insert_ne.
Qed.

End Coverage.
(** * The build of the cats application, run further *)

(** X2 at an original scan describing [Health] and generated components
    [User] and [CatShelter]. *)
Lemma merge_and_sort_keep_unshadowed_original_witness :
  let openAPIObject := @Build_OpenAPIObject Scenario.platform
                         (@Build_ComponentsObject Scenario.platform
                            [("Health", 0)] "parameters") "paths" in
  let doc := @Build_GeneratedDocument Scenario.platform
               (Some (@Build_GeneratedComponents Scenario.platform
                        (Some [("User", 101); ("CatShelter", 102)]))) in
  get "Health" (sortedSchemas "alpha" (mergedSchemas openAPIObject doc)) = Some 0.
Proof.
  intros openAPIObject doc.
  apply (@merge_and_sort_keep_unshadowed_original Scenario.platform "alpha"
           openAPIObject doc "Health").
  - reflexivity.
  - apply (bool_decide_unpack _). reflexivity.
Defined.

(** X4 at an original scan that fails. *)
Lemma scanApplication_propagates_original_failure_witness :
  @scanApplication Scenario.platform "alpha"
    (λ this app options st, (Throw (Thrown 500), st)) () () () Scenario.start
    = (Throw (Thrown 500), Scenario.start).
Proof.
  apply (@scanApplication_propagates_original_failure Scenario.platform). reflexivity.
Defined.

(** X3 at the cats application: [User] was registered with schema 1. *)
Lemma scanApplication_publishes_registered_schema_witness :
  let org := Scenario.orgScanApplication
               [Scenario.Health; Scenario.User; Scenario.deferred Scenario.CatShelter] [] in
  ∃ final st',
    @scanApplication Scenario.platform "default" org () () () Scenario.start
      = (Return final, st') ∧
    get "User" (schemas (components final)) = Some 101.
Proof.
  intros org.
  destruct (@scanApplication_publishes_registered_schema Scenario.platform "default" org
              () () () Scenario.start
              (@Build_OpenAPIObject Scenario.platform
                 (@Build_ComponentsObject Scenario.platform [("Health", 0)] "parameters")
                 "paths")
              (org () () () Scenario.start).2 "User" 1)
    as [final [Hscan Hget]].
  - apply pair_from_fst. reflexivity.
  - reflexivity.
  - by exists final, (org () () () Scenario.start).2.
Defined.

(** X5 at an application with no validation schema. *)
Lemma scanApplication_transparent_without_registrations_witness :
  let org := Scenario.orgScanApplication [Scenario.Health] [] in
  @scanApplication Scenario.platform (default "default" (sort {| sort := None |}))
    org () () () Scenario.start = org () () () Scenario.start.
Proof.
  intros org.
  transitivity
    (Return (@Build_OpenAPIObject Scenario.platform
               (@Build_ComponentsObject Scenario.platform [("Health", 0)] "parameters")
               "paths"),
     (org () () () Scenario.start).2).
  - apply (@scanApplication_transparent_without_registrations Scenario.platform
             {| sort := None |} org () () () Scenario.start).
    + discriminate.
    + discriminate.
    + apply pair_from_fst. reflexivity.
    + reflexivity.
    + reflexivity.
  - symmetry. apply pair_from_fst. reflexivity.
Defined.

(** X6 at two scans that describe the same two classes in opposite order. *)
Lemma alpha_sort_order_independent_witness :
  let document native := @Build_OpenAPIObject Scenario.platform
                           (@Build_ComponentsObject Scenario.platform native "parameters")
                           "paths" in
  let doc := @Build_GeneratedDocument Scenario.platform None in
  sortedSchemas "alpha" (mergedSchemas (document [("b", 1); ("a", 2)]) doc) =
  sortedSchemas "alpha" (mergedSchemas (document [("a", 2); ("b", 1)]) doc).
Proof.
  intros document doc.
  apply (@alpha_sort_order_independent Scenario.platform).
  change ([("b", 1); ("a", 2)] ≡ₚ [("a", 2); ("b", 1)]). apply perm_swap.
Defined.

(** X8 at the names b, 10, 9 of the original scan and 404, User of the
    registry. *)
Lemma alpha_sort_layout_witness :
  let org := Scenario.orgScanApplication [Scenario.NotFound; Scenario.User]
               [("9", 0); ("10", 0); ("b", 0)] in
  ∃ final st',
    @scanApplication Scenario.platform "alpha" org () () () Scenario.start
      = (Return final, st') ∧
    StronglySorted enumerationOrder (keys (schemas (components final))) ∧
    StronglySorted JSString.ordinal_lt (nonIndexKeys (schemas (components final))).
Proof.
  intros org.
  destruct (@alpha_sort_layout Scenario.platform org () () () Scenario.start
              (@Build_OpenAPIObject Scenario.platform
                 (@Build_ComponentsObject Scenario.platform
                    [("9", 0); ("10", 0); ("b", 0)] "parameters") "paths")
              (org () () () Scenario.start).2)
    as [final [Hscan Hlayout]].
  - apply pair_from_fst. reflexivity.
  - by exists final, (org () () () Scenario.start).2.
Defined.

(** The map it leaves. *)
Example alpha_sort_layout_run :
  let org := Scenario.orgScanApplication [Scenario.NotFound; Scenario.User]
               [("9", 0); ("10", 0); ("b", 0)] in
  (@scanApplication Scenario.platform "alpha" org () () () Scenario.start).1 =
    Return (@Build_OpenAPIObject Scenario.platform
              (@Build_ComponentsObject Scenario.platform
                 [("9", 0); ("10", 0); ("404", 104); ("User", 101); ("b", 0)]
                 "parameters")
              "paths").
Proof. reflexivity. Qed.

(** The comparator of the cats application is consistent. *)
Lemma Scenario_localeCompare_flip (a b : string) :
  (0 < @localeCompare Scenario.platform a b)%Z →
  (@localeCompare Scenario.platform b a <= 0)%Z.
Proof.
  unfold localeCompare, Scenario.platform. rewrite (String.compare_antisym b a).
  destruct (String.compare a b); simpl; lia.
Qed.

Lemma Scenario_localeCompare_chain (a b c : string) :
  (@localeCompare Scenario.platform a b <= 0)%Z →
  (@localeCompare Scenario.platform b c <= 0)%Z →
  (@localeCompare Scenario.platform a c <= 0)%Z.
Proof.
  unfold localeCompare, Scenario.platform.
  destruct (String.compare a b) eqn:Hab; [| |lia].
  - apply String.compare_eq_iff in Hab as ->. done.
  - destruct (String.compare b c) eqn:Hbc; [| |lia].
    + apply String.compare_eq_iff in Hbc as <-. by rewrite Hab.
    + by rewrite (JSStringFacts.compare_lt_trans a b c).
Qed.

(** X9 at the cats application. *)
Lemma localeCompare_sort_follows_comparator_witness :
  let org := Scenario.orgScanApplication
               [Scenario.Health; Scenario.User; Scenario.deferred Scenario.CatShelter] [] in
  ∃ final st',
    @scanApplication Scenario.platform "localeCompare" org () () () Scenario.start
      = (Return final, st') ∧
    StronglySorted (λ a b, (@localeCompare Scenario.platform a b <= 0)%Z)
      (keys (schemas (components final))).
Proof.
  intros org.
  destruct (@localeCompare_sort_follows_comparator Scenario.platform org
              () () () Scenario.start
              (@Build_OpenAPIObject Scenario.platform
                 (@Build_ComponentsObject Scenario.platform [("Health", 0)] "parameters")
                 "paths")
              (org () () () Scenario.start).2)
    as [final [Hscan Hsorted]].
  - exact Scenario_localeCompare_flip.
  - exact Scenario_localeCompare_chain.
  - apply pair_from_fst. reflexivity.
  - match goal with
    | |- Forall ?P ?l => let l' := eval vm_compute in l in change (Forall P l')
    end.
    repeat constructor.
  - by exists final, (org () () () Scenario.start).2.
Defined.

(** X10 at [User]: the resolved type carries the marker. *)
Lemma exploreModelSchema_original_unreached_witness :
  @exploreModelSchema Scenario.platform Scenario.orgExploreModelSchema
    Scenario.factory Scenario.User [] None Scenario.start =
  @exploreModelSchema Scenario.platform
    (λ this type schemas schemaRefsStack st,
       @Build_Explored Scenario.platform (Throw (Thrown 0)) [] [] st)
    Scenario.factory Scenario.User [] None Scenario.start.
Proof.
  apply (@exploreModelSchema_original_unreached Scenario.platform).
  intros resolved Hres. injection Hres as <-. by eexists.
Defined.

(** X12 at the two framework modules, loaded through [require]. *)
Lemma patchNestjsSwagger_installs_wrappers_witness :
  ∃ patched,
    @patchNestjsSwagger Scenario.platform Scenario.require
      (Some {| sort := Some "alpha" |})
      (Some {| schemaObjectFactoryModule := None; swaggerScannerModule := None |})
      Scenario.modules = (Return new_OpenAPIRegistry, patched) ∧
    (SchemaObjectFactory_prototype_exploreModelSchema <$> patched !! 0)
      = Some (Some (exploreModelSchema Scenario.orgExploreModelSchema)) ∧
    (SwaggerScanner_prototype_scanApplication <$> patched !! 1)
      = Some (Some (scanApplication "alpha"
                      (Scenario.orgScanApplication
                         [Scenario.Health; Scenario.User; Scenario.CatShelter] []))) ∧
    ∀ a, a ≠ 0 → a ≠ 1 → patched !! a = Scenario.modules !! a.
Proof.
  apply (@patchNestjsSwagger_installs_wrappers Scenario.platform Scenario.require
           {| sort := Some "alpha" |}
           {| schemaObjectFactoryModule := None; swaggerScannerModule := None |}
           Scenario.modules 0 1
           (@Build_Module Scenario.platform (Some Scenario.orgExploreModelSchema) None)
           (@Build_Module Scenario.platform None
              (Some (Scenario.orgScanApplication
                       [Scenario.Health; Scenario.User; Scenario.CatShelter] []))));
    reflexivity.
Defined.

(** X14 with a loader that finds nothing. *)
Lemma patchNestjsSwagger_loader_failure_witness :
  @patchNestjsSwagger Scenario.platform (λ path, Throw (Thrown 404))
    (Some {| sort := None |})
    (Some {| schemaObjectFactoryModule := Some 0; swaggerScannerModule := None |})
    Scenario.modules = (Throw (Thrown 404), Scenario.modules).
Proof.
  apply (@patchNestjsSwagger_loader_failure Scenario.platform).
  right. split; [by exists 0 | reflexivity].
Defined.

(** X15 with the factory module passed for both: it exports no scanner. *)
Lemma patchNestjsSwagger_partial_install_witness :
  ∃ patched,
    @patchNestjsSwagger Scenario.platform Scenario.require
      (Some {| sort := None |})
      (Some {| schemaObjectFactoryModule := Some 0; swaggerScannerModule := Some 0 |})
      Scenario.modules
      = (Throw (TypeError "Cannot read properties of undefined"), patched) ∧
    (SchemaObjectFactory_prototype_exploreModelSchema <$> patched !! 0)
      = Some (Some (exploreModelSchema Scenario.orgExploreModelSchema)) ∧
    ∀ a, a ≠ 0 → patched !! a = Scenario.modules !! a.
Proof.
  apply (@patchNestjsSwagger_partial_install Scenario.platform Scenario.require
           {| sort := None |}
           {| schemaObjectFactoryModule := Some 0; swaggerScannerModule := Some 0 |}
           Scenario.modules 0 0
           (@Build_Module Scenario.platform (Some Scenario.orgExploreModelSchema) None)
           (@Build_Module Scenario.platform (Some Scenario.orgExploreModelSchema) None));
    reflexivity.
Defined.

(** X11: a first scan that finds [User], a second that finds nothing. *)
Lemma registrations_survive_across_scans_witness :
  let first := Scenario.orgScanApplication [Scenario.User] [] in
  let second := Scenario.orgScanApplication [] [("Health", 0)] in
  ∃ final1 final2 st1 st2,
    @scanApplication Scenario.platform "default" first () () () Scenario.start
      = (Return final1, st1) ∧
    @scanApplication Scenario.platform "default" second () () () st1
      = (Return final2, st2) ∧
    get "User" (schemas (components final2)) = Some 101.
Proof.
  intros first second.
  destruct (@registrations_survive_across_scans Scenario.platform "default"
              first second () () () Scenario.start
              (@Build_OpenAPIObject Scenario.platform
                 (@Build_ComponentsObject Scenario.platform [] "parameters") "paths")
              (@Build_OpenAPIObject Scenario.platform
                 (@Build_ComponentsObject Scenario.platform [("Health", 0)] "parameters")
                 "paths")
              (first () () () Scenario.start).2
              (second () () () (first () () () Scenario.start).2).2
              "User" 1)
    as [final1 [final2 [Hscan1 [Hscan2 Hget]]]].
  - apply pair_from_fst. reflexivity.
  - reflexivity.
  - apply pair_from_fst. reflexivity.
  - reflexivity.
  - by exists final1, final2, (first () () () Scenario.start).2,
         (second () () () (first () () () Scenario.start).2).2.
Defined.

(** * The alpha comparison on UTF-16 code units *)

Module UTF16Facts.

Import JSObject.

Lemma lt16_irrefl (a : list N) : UTF16.lt a a = false.
Proof.
  induction a as [|x a IH]; simpl; [done|]. by rewrite N.ltb_irrefl.
Qed.

Lemma lt16_trans (a : list N) : ∀ b c,
  UTF16.lt a b = true → UTF16.lt b c = true → UTF16.lt a c = true.
Proof.
  induction a as [|x a IH]; intros [|y b] [|z c]; simpl; try done.
  destruct (N.ltb_spec x y), (N.ltb_spec y x), (N.ltb_spec y z), (N.ltb_spec z y),
    (N.ltb_spec x z), (N.ltb_spec z x); try done; try lia.
  apply IH.
Qed.

Lemma lt16_connected (a : list N) : ∀ b,
  UTF16.lt a b = false → UTF16.lt b a = false → a = b.
Proof.
  induction a as [|x a IH]; intros [|y b]; simpl; try done.
  destruct (N.ltb_spec x y), (N.ltb_spec y x); try done; try lia.
  intros Hab Hba. assert (x = y) as -> by lia. f_equal. by apply IH.
Qed.

Lemma lt16_asym (a b : list N) : UTF16.lt a b = true → UTF16.lt b a = false.
Proof.
  intros Hab. destruct (UTF16.lt b a) eqn:Hba; [|done].
  pose proof (lt16_trans _ _ _ Hab Hba) as Haa. by rewrite lt16_irrefl in Haa.
Qed.

Section Sorted.

Context {V : Type}.

Lemma alphaCompare16_le (a b : list N * V) :
  (UTF16.alphaCompare a b <= 0)%Z → UTF16.le a.1 b.1.
Proof.
  unfold UTF16.alphaCompare, UTF16.le. destruct (UTF16.lt a.1 b.1) eqn:Hab; [by right|].
  destruct (UTF16.lt b.1 a.1) eqn:Hba; [lia|]. intros _. left. by apply lt16_connected.
Qed.

Lemma alphaCompare16_gt (a b : list N * V) :
  (0 < UTF16.alphaCompare a b)%Z → UTF16.le b.1 a.1.
Proof.
  unfold UTF16.alphaCompare, UTF16.le. destruct (UTF16.lt a.1 b.1); [lia|].
  destruct (UTF16.lt b.1 a.1); [by right | lia].
Qed.

Lemma le16_trans (a b c : list N) : UTF16.le a b → UTF16.le b c → UTF16.le a c.
Proof.
  intros [->|Hab] [->|Hbc]; [by left | by right | by right |].
  right. by apply (lt16_trans a b c).
Qed.

(** Whatever code units the names have, the comparator of the alpha branch
    sorts the entries by code unit. *)
Lemma Array_sort_by_code_unit (l : list (list N * V)) :
  Array_sort UTF16.alphaCompare l ≡ₚ l ∧
  StronglySorted (λ a b, UTF16.le a.1 b.1) (Array_sort UTF16.alphaCompare l).
Proof.
  split; [apply ArraySortFacts.Array_sort_Permutation|].
  apply ArraySortFacts.Array_sort_StronglySorted.
  - apply alphaCompare16_le.
  - apply alphaCompare16_gt.
  - intros x y z. apply le16_trans.
Qed.

End Sorted.

(** On the names of the model, [JSString.lt] is that comparison. *)
Lemma lt_units (a : string) : ∀ b,
  UTF16.lt (UTF16.units a) (UTF16.units b) = JSString.lt a b.
Proof.
  unfold JSString.lt, String.ltb, UTF16.units.
  induction a as [|x a IH]; intros [|y b]; simpl; try done.
  unfold Ascii.compare.
  destruct (N.ltb_spec (N_of_ascii x) (N_of_ascii y)) as [Hlt|Hge].
  - apply N.compare_lt_iff in Hlt. by rewrite Hlt.
  - destruct (N.ltb_spec (N_of_ascii y) (N_of_ascii x)) as [Hgt|Hle].
    + apply N.compare_gt_iff in Hgt. by rewrite Hgt.
    + assert (Heq : N_of_ascii x = N_of_ascii y) by lia.
      apply N.compare_eq_iff in Heq. rewrite Heq. apply IH.
Qed.

(** Without a high surrogate, code units are code points, and the two
    orders are one. *)
Lemma codePoints_without_surrogate (s : list N) :
  Forall (λ u, UTF16.highSurrogate u = false) s → UTF16.codePoints s = s.
Proof.
  induction 1 as [|h rest Hh Hrest IH]; [done|].
  destruct rest as [|l rest']; [done|].
  change (UTF16.codePoints (h :: l :: rest'))
    with (if UTF16.highSurrogate h && UTF16.lowSurrogate l
          then (65536 + (h - 55296) * 1024 + (l - 56320))%N :: UTF16.codePoints rest'
          else h :: UTF16.codePoints (l :: rest')).
  rewrite Hh. cbn [andb]. by rewrite IH.
Qed.

Lemma codePoint_lt_without_surrogate (a b : list N) :
  Forall (λ u, UTF16.highSurrogate u = false) a →
  Forall (λ u, UTF16.highSurrogate u = false) b →
  UTF16.codePoint_lt a b = UTF16.lt a b.
Proof.
  intros Ha Hb. unfold UTF16.codePoint_lt.
  by rewrite !codePoints_without_surrogate.
Qed.

(** The names U+FF21 and U+20BB7 (code units D842 DFB7): by code point the
    first is the smaller, [<] says the second is, and the alpha branch puts
    the second first. *)
Lemma alpha_sort_surrogate_pair_first :
  let fullwidthA := [65313%N] in
  let supplementary := [55362%N; 57271%N] in
  UTF16.codePoints supplementary = [134071%N] ∧
  UTF16.codePoint_lt fullwidthA supplementary = true ∧
  UTF16.lt supplementary fullwidthA = true ∧
  Array_sort UTF16.alphaCompare [(fullwidthA, 1); (supplementary, 2)]
    = [(supplementary, 2); (fullwidthA, 1)].
Proof. repeat split. Qed.

End UTF16Facts.

(** The order C5 is about, read on code units: with sort [alpha] and no
    array index among the names, each name of the final schema map is below
    every later one in the order [<] has on their UTF-16 code units. *)
Lemma alpha_branch_ascending_by_code_unit `{Platform}
  (m : list (string * SchemaObject)) :
  NoDup (JSObject.keys m) →
  Forall (λ k, JSString.arrayIndex k = None) (JSObject.keys m) →
  StronglySorted (λ a b, UTF16.lt (UTF16.units a) (UTF16.units b) = true)
    (JSObject.keys (sortedSchemas "alpha" m)).
Proof.
  intros Hnd Hidx. pose proof (alpha_branch_ascending m Hnd Hidx) as Hsorted.
  induction Hsorted as [|a l Hs IH Hall]; constructor; [done|].
  eapply Forall_impl; [exact Hall|]. intros b Hab.
  rewrite UTF16Facts.lt_units. by apply JSStringFacts.lt_spec.
Qed.
